(** * The keyed resource pool of the driver (src/v1/internal/pool.js)

    A shallow embedding of class [Pool] and the properties of its five
    operations.

    Modelling choices, all read off the source:

    - [this._pools] is a plain JavaScript object, [{}], used as a map from
      keys to arrays.  Keys are property names, hence strings.  Its own
      properties are an association list in the order of their creation,
      which is what [Object.keys] goes by.  Reading [this._pools[key]] and
      testing [key in this._pools] also find the properties every object
      inherits from [Object.prototype]; [delete] and [Object.keys] do not.
    - every array of [this._pools] is only touched through [push], [pop] and
      [length], that is as a stack.  The array [[a0, ..., an]] is the list
      [[an; ...; a0]]: the head of the list is the element that [pop]
      removes, [push] is cons.
    - the arrays are shared objects: [acquire] pops from the array that is
      stored under the key, so the popped array is stored back under the key.
    - the three callbacks given to the constructor are arbitrary code.  They
      are state transformers over a world [W] the pool does not see (open
      sockets, clocks, counters): a validator may answer differently for the
      same resource at different times.  They do not call back into the pool,
      and [validate] and [destroy] do not throw; [create] may throw.
    - a method returns the state it leaves together with its result: a
      resource or the exception thrown for [acquire], the exception thrown if
      any for the methods that return nothing.
    - every call of a callback is recorded, in order, in a trace, so that
      "destroy is called once" is a statement on the trace.
    - [maxIdle] is a number of resources, a [nat]. *)

From stdpp Require Import strings list sorting.

(** ** Property names *)

(** The value of a decimal digit. *)
Definition digit (c : Ascii.ascii) : option N :=
  let n := Ascii.N_of_ascii c in
  if ((48 <=? n) && (n <=? 57))%N then Some (n - 48)%N else None.

Fixpoint digits (s : string) (acc : N) : option N :=
  match s with
  | EmptyString => Some acc
  | String c s' =>
      match digit c with
      | Some d => digits s' (10 * acc + d)%N
      | None => None
      end
  end.

(** An array index is the canonical decimal form of a number below
    [2^32 - 1]: ["0"], ["7"], ["10"], but not ["07"] nor ["1.0"]. *)
Definition array_index (key : string) : option N :=
  match key with
  | EmptyString => None
  | String c s' =>
      if bool_decide (digit c = Some 0%N ∧ s' ≠ EmptyString) then None
      else match digits key 0 with
           | Some n => if (n <? 4294967295)%N then Some n else None
           | None => None
           end
  end.

Definition index_le (k1 k2 : string) : Prop :=
  (default 0 (array_index k1) ≤ default 0 (array_index k2))%N.

#[global] Instance index_le_dec : RelDecision index_le :=
  λ k1 k2,
    decide (default 0 (array_index k1) ≤ default 0 (array_index k2))%N.

(** ** Objects used as maps *)

(** The own properties of an object, in the order of their creation. *)
Record object (V : Type) : Type := Object { own : list (string * V) }.
Arguments Object {V} _.
Arguments own {V} _.

Fixpoint own_lookup {V : Type} (key : string) (l : list (string * V))
  : option V :=
  match l with
  | [] => None
  | (k, v) :: l' => if decide (k = key) then Some v else own_lookup key l'
  end.

(** [o[key] = v]: an existing property keeps its place, a new one comes
    last. *)
Fixpoint own_insert {V : Type} (key : string) (v : V) (l : list (string * V))
  : list (string * V) :=
  match l with
  | [] => [(key, v)]
  | (k, v') :: l' =>
      if decide (k = key) then (k, v) :: l' else (k, v') :: own_insert key v l'
  end.

(** [delete o[key]]. *)
Definition own_delete {V : Type} (key : string) (l : list (string * V))
  : list (string * V) :=
  filter (λ kv, kv.1 ≠ key) l.

#[global] Instance object_lookup {V : Type} : Lookup string V (object V) :=
  λ key o, own_lookup key (own o).

#[global] Instance object_insert {V : Type} : Insert string V (object V) :=
  λ key v o, Object (own_insert key v (own o)).

#[global] Instance object_delete {V : Type} : Delete string (object V) :=
  λ key o, Object (own_delete key (own o)).

#[global] Instance object_empty {V : Type} : Empty (object V) := Object [].

(** The names of the own properties, each once. *)
Definition own_keys {V : Type} (o : object V) : list string :=
  remove_dups (own o).*1.

#[global] Instance object_size {V : Type} : Size (object V) :=
  λ o, length (own_keys o).

(** [Object.keys]: the array indices in ascending order, then the other
    names in the order of their creation. *)
Definition Object_keys {V : Type} (o : object V) : list string :=
  merge_sort index_le (filter (λ k, is_Some (array_index k)) (own_keys o))
  ++ filter (λ k, ¬ is_Some (array_index k)) (own_keys o).

(** The properties that every object inherits from [Object.prototype] in
    ECMAScript, each with the [length] of its value: the number of
    parameters of a function; none for [__proto__], whose value is
    [Object.prototype] itself.  All these values are truthy, and none has a
    [pop] or a [push]. *)
Definition Object_prototype_properties : list (string * option nat) :=
  [("constructor", Some 1); ("hasOwnProperty", Some 1);
   ("isPrototypeOf", Some 1); ("propertyIsEnumerable", Some 1);
   ("toLocaleString", Some 0); ("toString", Some 0); ("valueOf", Some 0);
   ("__defineGetter__", Some 2); ("__defineSetter__", Some 2);
   ("__lookupGetter__", Some 1); ("__lookupSetter__", Some 1);
   ("__proto__", None)].

Definition Object_prototype (key : string) : option (option nat) :=
  own_lookup key Object_prototype_properties.

(** ** The constructor's arguments

    [create(key, release)]: the second argument is always the pool's own
    bound [_release]; a resource hands itself back with
    [_release key resource] below.  The default of [destroy] and of
    [validate] is [() => true], the default of [maxIdle] is 50. *)
Class PoolArgs (R W E : Type) : Type := {
  create : string → W → (E + R) * W;
  destroy : R → W → W;
  validate : R → W → bool * W;
  maxIdle : nat
}.

(** ** Exceptions *)

(** What a method of the pool throws: what [create] threw, or the
    [TypeError] of the engine for a call of something that is not a
    function. *)
Inductive throw (E : Type) : Type :=
| Thrown (e : E)
| TypeError.
Arguments Thrown {E} e.
Arguments TypeError {E}.

Definition thrown {E R : Type} (res : E + R) : throw E + R :=
  match res with
  | inl e => inl (Thrown e)
  | inr resource => inr resource
  end.

(** ** Callback invocations *)

Inductive call (R : Type) : Type :=
| CallCreate (key : string)
| CallDestroy (resource : R)
| CallValidate (resource : R).
Arguments CallCreate {R} key.
Arguments CallDestroy {R} resource.
Arguments CallValidate {R} resource.

Record Env (R W : Type) : Type := { world : W; trace : list (call R) }.
Arguments Build_Env {R W} _ _.
Arguments world {R W} _.
Arguments trace {R W} _.

(** ** The pool *)

Record Pool (R W : Type) : Type :=
  { _pools : object (list R); env : Env R W }.
Arguments Build_Pool {R W} _ _.
Arguments _pools {R W} _.
Arguments env {R W} _.

Inductive op (R : Type) : Type :=
| Acquire (key : string)
| Release (key : string) (resource : R)
| Purge (key : string)
| PurgeAll
| Has (key : string).
Arguments Acquire {R} key.
Arguments Release {R} key resource.
Arguments Purge {R} key.
Arguments PurgeAll {R}.
Arguments Has {R} key.

Section model.
Context {R W E : Type} {args : PoolArgs R W E}.

Definition call_create (key : string) (e : Env R W) : (throw E + R) * Env R W :=
  let (res, w) := create key (world e) in
  (thrown res, {| world := w; trace := trace e ++ [CallCreate key] |}).

Definition call_destroy (resource : R) (e : Env R W) : Env R W :=
  {| world := destroy resource (world e);
     trace := trace e ++ [CallDestroy resource] |}.

Definition call_validate (resource : R) (e : Env R W) : bool * Env R W :=
  let (ok, w) := validate resource (world e) in
  (ok, {| world := w; trace := trace e ++ [CallValidate resource] |}).

(** [constructor]: [this._pools = {}]. *)
Definition new_Pool (w : W) : Pool R W :=
  {| _pools := ∅; env := {| world := w; trace := [] |} |}.

(** What [this._pools[key]] finds on [Object.prototype] when [key] is not an
    own property: the [length] of the inherited value. *)
Definition inherits (key : string) (p : Pool R W) : option (option nat) :=
  match _pools p !! key with
  | Some _ => None
  | None => Object_prototype key
  end.

(** The [while (pool.length)] loop of [acquire] on an array: the resource
    found if any, what is left of the array, and the callbacks' state. *)
Fixpoint acquire_loop (pool : list R) (e : Env R W)
  : option R * list R * Env R W :=
  match pool with
  | [] => (None, [], e)
  | resource :: pool' =>
      let (ok, e1) := call_validate resource e in
      if ok then (Some resource, pool', e1)
      else acquire_loop pool' (call_destroy resource e1)
  end.

Definition acquire (key : string) (p : Pool R W) : (throw E + R) * Pool R W :=
  match inherits key p with
  | Some (Some (S _)) =>
      (* pool is an inherited function, pool.length is not 0:
         pool.pop is not a function *)
      (inl TypeError, p)
  | Some _ =>
      (* pool is inherited, pool.length is 0 or undefined: no loop, and no
         list has been stored *)
      let (res, e1) := call_create key (env p) in
      (res, {| _pools := _pools p; env := e1 |})
  | None =>
      let pool := default [] (_pools p !! key) in
      let '(found, pool', e1) := acquire_loop pool (env p) in
      let pools' := <[key := pool']> (_pools p) in
      match found with
      | Some resource => (inr resource, {| _pools := pools'; env := e1 |})
      | None =>
          let (res, e2) := call_create key e1 in
          (res, {| _pools := pools'; env := e2 |})
      end
  end.

(** The [while (pool.length)] loop of [purge] on an array. *)
Fixpoint purge_loop (pool : list R) (e : Env R W) : Env R W :=
  match pool with
  | [] => e
  | resource :: pool' => purge_loop pool' (call_destroy resource e)
  end.

Definition purge (key : string) (p : Pool R W)
  : option (throw E) * Pool R W :=
  match inherits key p with
  | Some (Some (S _)) =>
      (* pool.pop is not a function *)
      (Some TypeError, p)
  | _ =>
      (* an array, or [] for an unknown key, or an inherited value whose
         length is 0 or undefined: delete removes an own property only *)
      let pool := default [] (_pools p !! key) in
      (None,
       {| _pools := delete key (_pools p); env := purge_loop pool (env p) |})
  end.

(** [forEach(key => this.purge(key))]: an exception ends the loop. *)
Fixpoint purge_each (keys : list string) (p : Pool R W)
  : option (throw E) * Pool R W :=
  match keys with
  | [] => (None, p)
  | key :: keys' =>
      match purge key p with
      | (Some err, p') => (Some err, p')
      | (None, p') => purge_each keys' p'
      end
  end.

Definition purgeAll (p : Pool R W) : option (throw E) * Pool R W :=
  purge_each (Object_keys (_pools p)) p.

(** [key in this._pools]: own or inherited. *)
Definition has (key : string) (p : Pool R W) : bool :=
  bool_decide (is_Some (_pools p !! key))
  || bool_decide (is_Some (Object_prototype key)).

Definition _release (key : string) (resource : R) (p : Pool R W)
  : option (throw E) * Pool R W :=
  match inherits key p with
  | Some length =>
      (* pool is inherited, hence truthy; undefined >= maxIdle is false *)
      if match length with Some n => maxIdle <=? n | None => false end then
        (None, {| _pools := _pools p; env := call_destroy resource (env p) |})
      else
        let (ok, e1) := call_validate resource (env p) in
        if ok then
          (* pool.push is not a function *)
          (Some TypeError, {| _pools := _pools p; env := e1 |})
        else
          (None, {| _pools := _pools p; env := call_destroy resource e1 |})
  | None =>
      match _pools p !! key with
      | None =>
          (* key has been purged, don't put it back, just destroy the
             resource *)
          (None,
           {| _pools := _pools p; env := call_destroy resource (env p) |})
      | Some pool =>
          if maxIdle <=? length pool then
            (None,
             {| _pools := _pools p; env := call_destroy resource (env p) |})
          else
            let (ok, e1) := call_validate resource (env p) in
            if ok then
              (None,
               {| _pools := <[key := resource :: pool]> (_pools p);
                  env := e1 |})
            else
              (None,
               {| _pools := _pools p; env := call_destroy resource e1 |})
      end
  end.

(** ** Runs of the pool *)

(** The state in which an operation leaves the pool, whether it returns or
    throws. *)
Definition exec (o : op R) (p : Pool R W) : Pool R W :=
  match o with
  | Acquire key => (acquire key p).2
  | Release key resource => (_release key resource p).2
  | Purge key => (purge key p).2
  | PurgeAll => (purgeAll p).2
  | Has key => p
  end.

Definition run (os : list (op R)) (p : Pool R W) : Pool R W :=
  foldl (λ p o, exec o p) p os.

Inductive reachable : Pool R W → Prop :=
| reachable_new w : reachable (new_Pool w)
| reachable_exec o p : reachable p → reachable (exec o p).

(** ** Reading a trace *)

Definition destroyed (cs : list (call R)) : list R :=
  omap (λ c, match c with CallDestroy r => Some r | _ => None end) cs.

Definition created (cs : list (call R)) : list string :=
  omap (λ c, match c with CallCreate k => Some k | _ => None end) cs.

Definition validated (cs : list (call R)) : list R :=
  omap (λ c, match c with CallValidate r => Some r | _ => None end) cs.

(** ** Notions used by the statements *)

(** [rejects bad w w']: from world [w], each resource of [bad] in turn is
    refused by the validator and destroyed, which leaves world [w']. *)
Inductive rejects : list R → W → W → Prop :=
| rejects_nil w : rejects [] w w
| rejects_cons r bad w w1 w' :
    validate r w = (false, w1) →
    rejects bad (destroy r w1) w' →
    rejects (r :: bad) w w'.

(** The calls made while rejecting [bad]. *)
Definition reject_calls (bad : list R) : list (call R) :=
  bad ≫= λ r, [CallValidate r; CallDestroy r].

(** The key an operation is given ([purgeAll] has none). *)
Definition op_key (o : op R) : option string :=
  match o with
  | Acquire key | Release key _ | Purge key | Has key => Some key
  | PurgeAll => None
  end.

(** Whether an operation purges [key]. *)
Definition purges (key : string) (o : op R) : bool :=
  match o with
  | Purge k => bool_decide (k = key)
  | PurgeAll => true
  | _ => false
  end.

(** Whether an operation is [acquire(key)]. *)
Definition acquires (key : string) (o : op R) : bool :=
  match o with
  | Acquire k => bool_decide (k = key)
  | _ => false
  end.

(** The invariant of §3: no idle-list is longer than [maxIdle]. *)
Definition bounded (p : Pool R W) : Prop :=
  ∀ key pool, _pools p !! key = Some pool → length pool ≤ maxIdle.

End model.

(** ** Notions used by the further properties *)

Section accounts.
Context {R W E : Type} {args : PoolArgs R W E}.

(** Every idle resource of the pool, key after key in the order of
    [Object.keys], each idle-list from its most recently pushed end. *)
Definition idle (p : Pool R W) : list R :=
  Object_keys (_pools p) ≫= λ key, default [] (_pools p !! key).

(** The idle resource that [acquire key] hands to its caller, if its loop
    finds one. *)
Definition reused (key : string) (p : Pool R W) : option R :=
  (acquire_loop (default [] (_pools p !! key)) (env p)).1.1.

(** What an operation hands to its caller out of the idle-lists, what it is
    given, and what it is given and loses by throwing. *)
Definition handed_out (o : op R) (p : Pool R W) : list R :=
  match o with
  | Acquire key => option_list (reused key p)
  | _ => []
  end.

Definition taken_in (o : op R) : list R :=
  match o with
  | Release _ resource => [resource]
  | _ => []
  end.

Definition dropped (o : op R) (p : Pool R W) : list R :=
  match o with
  | Release key resource =>
      match (_release key resource p).1 with
      | Some _ => [resource]
      | None => []
      end
  | _ => []
  end.

Fixpoint run_handed_out (os : list (op R)) (p : Pool R W) : list R :=
  match os with
  | [] => []
  | o :: os' => handed_out o p ++ run_handed_out os' (exec o p)
  end.

Fixpoint run_dropped (os : list (op R)) (p : Pool R W) : list R :=
  match os with
  | [] => []
  | o :: os' => dropped o p ++ run_dropped os' (exec o p)
  end.

(** The keys of the [acquire] calls of a run. *)
Definition acquired_keys (os : list (op R)) : list string :=
  omap (λ o, match o with Acquire key => Some key | _ => None end) os.

(** [n] calls of [acquire key] in a row, with their results. *)
Fixpoint acquire_many (key : string) (n : nat) (p : Pool R W)
  : list (throw E + R) * Pool R W :=
  match n with
  | 0 => ([], p)
  | S n' =>
      let (res, p1) := acquire key p in
      let (ress, p2) := acquire_many key n' p1 in
      (res :: ress, p2)
  end.

End accounts.

(** [new Pool(create)]: the defaults of the constructor,
    [destroy = (() => true)], [validate = (() => true)], [maxIdle = 50]. *)
Definition with_defaults {R W E : Type}
    (factory : string → W → (E + R) * W) : PoolArgs R W E :=
  {| create := factory;
     destroy := λ _ w, w;
     validate := λ _ w, (true, w);
     maxIdle := 50 |}.

(** ** Pools to run the model on

    Resources are numbers, errors are strings, and the world is a counter. *)

(** Resources are numbered by the counter; nothing ever expires; at most two
    idle resources per key. *)
Definition steady : PoolArgs nat nat string :=
  {| create := λ _ n, (inr n, S n);
     destroy := λ _ n, n;
     validate := λ _ n, (true, n);
     maxIdle := 2 |}.

(** The same factory in a pool that keeps nothing idle. *)
Definition no_idle : PoolArgs nat nat string :=
  {| create := λ _ n, (inr n, S n);
     destroy := λ _ n, n;
     validate := λ _ n, (true, n);
     maxIdle := 0 |}.

(** The counter is a clock that every validation advances.  The server
    accepts one connection, at time 0, and the connection is valid at time 0
    only. *)
Definition expiring : PoolArgs nat nat string :=
  {| create := λ _ t, if t =? 0 then (inr 7, t) else (inl "ECONNREFUSED", t);
     destroy := λ _ t, t;
     validate := λ _ t, (t =? 0, S t);
     maxIdle := 50 |}.

(** Three resources are borrowed for one key from a new pool. *)
Definition steady_start : Pool nat nat :=
  run (args := steady) [Acquire "a"; Acquire "a"; Acquire "a"] (new_Pool 0).

(** Two of them are back, the idle-list of ["a"] is full. *)
Definition steady_full : Pool nat nat :=
  run (args := steady) [Release "a" 0; Release "a" 1] steady_start.

(** Four resources are borrowed and the first is back: one idle resource. *)
Definition steady_one_idle : Pool nat nat :=
  run (args := steady)
    [Acquire "a"; Acquire "a"; Acquire "a"; Acquire "a"; Release "a" 0]
    (new_Pool 0).

(** A connection is borrowed and released; it lies idle and has expired. *)
Definition expiring_idle : Pool nat nat :=
  run (args := expiring) [Acquire "a"; Release "a" 7] (new_Pool 0).

(** Idle resources under two keys, ["b"] created before ["a"]. *)
Definition steady_two_keys : Pool nat nat :=
  run (args := steady)
    [Acquire "b"; Acquire "a"; Acquire "b";
     Release "b" 0; Release "a" 1; Release "b" 2]
    (new_Pool 0).

(** * Objects *)

Section object_facts.
Context {V : Type}.
Implicit Types (o : object V) (l : list (string * V)) (key k : string) (v : V).

Lemma own_lookup_insert_eq l key v :
  own_lookup key (own_insert key v l) = Some v.
Proof.
  induction l as [|[k v'] l IH]; cbn.
  - by rewrite decide_True.
  - destruct (decide (k = key)) as [->|Hne]; cbn.
    + by rewrite decide_True.
    + by rewrite decide_False.
Qed.

Lemma own_lookup_insert_ne l key k v :
  key ≠ k → own_lookup k (own_insert key v l) = own_lookup k l.
Proof.
  intros Hne. induction l as [|[k' v'] l IH]; cbn.
  - by rewrite decide_False.
  - destruct (decide (k' = key)) as [->|Hne']; cbn.
    + by rewrite !decide_False.
    + by rewrite IH.
Qed.

Lemma own_lookup_delete l key k :
  own_lookup k (own_delete key l)
  = if decide (key = k) then None else own_lookup k l.
Proof.
  unfold own_delete. induction l as [|[k' v'] l IH].
  - cbn. by destruct (decide (key = k)).
  - destruct (decide (k' = key)) as [->|Hne].
    + rewrite filter_cons_False by (cbn; by intros ?). rewrite IH. cbn.
      by destruct (decide (key = k)).
    + rewrite filter_cons_True by done. cbn. rewrite IH.
      destruct (decide (key = k)) as [->|]; [|done].
      by rewrite decide_False.
Qed.

Lemma own_insert_insert l key v v' :
  own_insert key v (own_insert key v' l) = own_insert key v l.
Proof.
  induction l as [|[k' v''] l IH]; cbn.
  - by rewrite decide_True.
  - destruct (decide (k' = key)) as [->|Hne]; cbn.
    + by rewrite decide_True.
    + by rewrite decide_False, IH.
Qed.

Lemma own_insert_id l key v :
  own_lookup key l = Some v → own_insert key v l = l.
Proof.
  induction l as [|[k' v'] l IH]; cbn; [done|].
  destruct (decide (k' = key)) as [->|Hne].
  - by intros [= ->].
  - intros Hl. by rewrite IH.
Qed.

Lemma own_delete_id l key : own_lookup key l = None → own_delete key l = l.
Proof.
  unfold own_delete. induction l as [|[k' v'] l IH]; [done|].
  cbn [own_lookup]. destruct (decide (k' = key)) as [->|Hne]; [done|].
  intros Hl. rewrite filter_cons_True by done. by rewrite IH.
Qed.

Lemma own_delete_insert l key v :
  own_delete key (own_insert key v l) = own_delete key l.
Proof.
  unfold own_delete. induction l as [|[k' v'] l IH]; cbn [own_insert].
  - rewrite filter_cons_False; [done|]. cbn. by intros ?.
  - destruct (decide (k' = key)) as [->|Hne].
    + rewrite !filter_cons_False; [done| |]; cbn; by intros ?.
    + rewrite !filter_cons_True by done. by rewrite IH.
Qed.

Lemma elem_of_fst_own l key : key ∈ l.*1 ↔ is_Some (own_lookup key l).
Proof.
  induction l as [|[k' v'] l IH]; cbn.
  - split; [by intros ?%elem_of_nil|by intros [? ?]].
  - rewrite elem_of_cons, IH. destruct (decide (k' = key)) as [->|Hne].
    + split; [by eexists|by left].
    + split; [by intros [?|?]|by right].
Qed.

Lemma obj_lookup_empty key : (∅ : object V) !! key = None.
Proof. reflexivity. Qed.

Lemma obj_lookup_insert_eq o key v : <[key := v]> o !! key = Some v.
Proof. apply own_lookup_insert_eq. Qed.

Lemma obj_lookup_insert_ne o key k v :
  key ≠ k → <[key := v]> o !! k = o !! k.
Proof. apply own_lookup_insert_ne. Qed.

Lemma obj_lookup_delete o key k :
  delete key o !! k = if decide (key = k) then None else o !! k.
Proof. apply own_lookup_delete. Qed.

Lemma obj_insert_insert_eq o key v v' :
  <[key := v]> (<[key := v']> o) = <[key := v]> o.
Proof.
  unfold insert, object_insert. cbn [own]. by rewrite own_insert_insert.
Qed.

Lemma obj_insert_id o key v : o !! key = Some v → <[key := v]> o = o.
Proof.
  intros Hk. destruct o as [l]. unfold insert, object_insert. cbn [own].
  by rewrite own_insert_id.
Qed.

Lemma obj_delete_id o key : o !! key = None → delete key o = o.
Proof.
  intros Hk. destruct o as [l]. unfold delete, object_delete. cbn [own].
  by rewrite own_delete_id.
Qed.

Lemma obj_delete_insert_eq o key v : delete key (<[key := v]> o) = delete key o.
Proof.
  unfold delete, object_delete, insert, object_insert. cbn [own].
  by rewrite own_delete_insert.
Qed.

Lemma obj_empty_lookup o : (∀ key, o !! key = None) → o = ∅.
Proof.
  destruct o as [[|[k v] l]]; [done|]. intros Hall. specialize (Hall k).
  unfold lookup, object_lookup in Hall. cbn in Hall.
  by rewrite decide_True in Hall.
Qed.

Lemma elem_of_own_keys o key : key ∈ own_keys o ↔ is_Some (o !! key).
Proof. unfold own_keys. rewrite elem_of_remove_dups. apply elem_of_fst_own. Qed.

Lemma NoDup_own_keys o : NoDup (own_keys o).
Proof. apply NoDup_remove_dups. Qed.

Lemma Object_keys_own_keys o : Object_keys o ≡ₚ own_keys o.
Proof.
  unfold Object_keys. rewrite merge_sort_Permutation.
  apply filter_app_complement.
Qed.

Lemma elem_of_Object_keys o key : key ∈ Object_keys o ↔ is_Some (o !! key).
Proof. rewrite Object_keys_own_keys. apply elem_of_own_keys. Qed.

Lemma NoDup_Object_keys o : NoDup (Object_keys o).
Proof. rewrite Object_keys_own_keys. apply NoDup_own_keys. Qed.

Lemma Object_keys_empty : Object_keys (∅ : object V) = [].
Proof. reflexivity. Qed.

Lemma length_Object_keys o : length (Object_keys o) = size o.
Proof. by rewrite Object_keys_own_keys. Qed.

(** The keys of an object, with [key] set apart. *)
Lemma own_keys_delete o key :
  own_keys o
  ≡ₚ (if o !! key is Some _ then [key] else []) ++ own_keys (delete key o).
Proof.
  assert (key ∉ own_keys (delete key o)) as Hnot.
  { rewrite elem_of_own_keys, obj_lookup_delete, decide_True by done.
    by intros [? ?]. }
  apply NoDup_Permutation.
  - apply NoDup_own_keys.
  - apply NoDup_app. split; [|split].
    + destruct (o !! key); [apply NoDup_singleton|constructor].
    + intros k Hk. destruct (o !! key); [|by apply elem_of_nil in Hk].
      by apply list_elem_of_singleton in Hk as ->.
    + apply NoDup_own_keys.
  - intros k. rewrite elem_of_app, !elem_of_own_keys, obj_lookup_delete.
    destruct (decide (key = k)) as [->|Hne].
    + destruct (o !! k) as [v|].
      * split; [intros _; left; by left|by eexists].
      * split; [by intros [? ?]|].
        intros [?%elem_of_nil|[? ?]]; done.
    + split; [by right|]. intros [Hk|Hk]; [|done].
      destruct (o !! key); [|by apply elem_of_nil in Hk].
      by apply list_elem_of_singleton in Hk.
Qed.

End object_facts.

(** * The pool *)

Section properties.
Context {R W E : Type} {args : PoolArgs R W E}.
Implicit Types (key : string) (p : Pool R W) (e : Env R W).
Implicit Types (pool bad rest : list R) (cs : list (call R)).

(** ** Traces *)

Lemma destroyed_app cs1 cs2 :
  destroyed (cs1 ++ cs2) = destroyed cs1 ++ destroyed cs2.
Proof. apply omap_app. Qed.

Lemma created_app cs1 cs2 :
  created (cs1 ++ cs2) = created cs1 ++ created cs2.
Proof. apply omap_app. Qed.

Lemma validated_app cs1 cs2 :
  validated (cs1 ++ cs2) = validated cs1 ++ validated cs2.
Proof. apply omap_app. Qed.

Lemma destroyed_snoc_destroy cs r :
  destroyed (cs ++ [CallDestroy r]) = destroyed cs ++ [r].
Proof. by rewrite destroyed_app. Qed.

Lemma destroyed_snoc_validate cs r :
  destroyed (cs ++ [CallValidate r]) = destroyed cs.
Proof. rewrite destroyed_app. apply app_nil_r. Qed.

Lemma destroyed_snoc_create cs key :
  destroyed (cs ++ [CallCreate key]) = destroyed cs.
Proof. rewrite destroyed_app. apply app_nil_r. Qed.

Lemma created_snoc_destroy cs r :
  created (cs ++ [CallDestroy r]) = created cs.
Proof. rewrite created_app. apply app_nil_r. Qed.

Lemma created_snoc_validate cs r :
  created (cs ++ [CallValidate r]) = created cs.
Proof. rewrite created_app. apply app_nil_r. Qed.

Lemma created_snoc_create cs key :
  created (cs ++ [CallCreate key]) = created cs ++ [key].
Proof. by rewrite created_app. Qed.

(** Reads the trace of a state that is spelled out. *)
Ltac read_trace :=
  unfold call_destroy; cbn [fst snd _pools env world trace];
  rewrite ?destroyed_snoc_destroy, ?destroyed_snoc_validate,
    ?destroyed_snoc_create, ?created_snoc_destroy, ?created_snoc_validate,
    ?created_snoc_create.

Lemma reject_calls_cons r bad :
  reject_calls (r :: bad) = CallValidate r :: CallDestroy r :: reject_calls bad.
Proof. reflexivity. Qed.

Lemma reject_calls_app bad1 bad2 :
  reject_calls (bad1 ++ bad2) = reject_calls bad1 ++ reject_calls bad2.
Proof. apply bind_app. Qed.

Lemma destroyed_reject_calls bad : destroyed (reject_calls bad) = bad.
Proof.
  induction bad as [|r bad IH]; [done|].
  cbn. f_equal. exact IH.
Qed.

Lemma validated_reject_calls bad : validated (reject_calls bad) = bad.
Proof.
  induction bad as [|r bad IH]; [done|].
  cbn. f_equal. exact IH.
Qed.

Lemma created_reject_calls bad : created (reject_calls bad) = [].
Proof.
  induction bad as [|r bad IH]; [done|].
  cbn. exact IH.
Qed.

Lemma destroyed_fmap_destroy pool : destroyed (CallDestroy <$> pool) = pool.
Proof. induction pool as [|r pool IH]; [done|]. cbn. f_equal. exact IH. Qed.

Lemma created_fmap_destroy pool : created (CallDestroy <$> pool) = [].
Proof. induction pool as [|r pool IH]; [done|]. cbn. exact IH. Qed.

Lemma validated_fmap_destroy pool : validated (CallDestroy <$> pool) = [].
Proof. induction pool as [|r pool IH]; [done|]. cbn. exact IH. Qed.

(** ** Inherited names *)

Lemma inherits_own key p pool :
  _pools p !! key = Some pool → inherits key p = None.
Proof. intros Hk. unfold inherits. by rewrite Hk. Qed.

Lemma inherits_plain key p : Object_prototype key = None → inherits key p = None.
Proof. intros Hk. unfold inherits. by destruct (_pools p !! key). Qed.

Lemma inherits_Some key p length :
  inherits key p = Some length →
  _pools p !! key = None ∧ Object_prototype key = Some length.
Proof. unfold inherits. by destruct (_pools p !! key). Qed.

Lemma inherits_lookup key p :
  is_Some (inherits key p) → default [] (_pools p !! key) = [].
Proof. intros [length [-> _]%inherits_Some]. done. Qed.

(** [this._pools[key]] stays what it is when the own property [key] does. *)
Lemma inherits_ext key p p' :
  _pools p' !! key = _pools p !! key → inherits key p' = inherits key p.
Proof. intros Hk. unfold inherits. by rewrite Hk. Qed.

(** ** The loop of [acquire] *)

Lemma acquire_loop_spec pool e :
  ∃ bad rest w1,
    pool = bad ++ rest ∧ rejects bad (world e) w1 ∧
    match rest with
    | [] =>
        acquire_loop pool e
        = (None, [], {| world := w1; trace := trace e ++ reject_calls bad |})
    | r :: rest' =>
        ∃ w2, validate r w1 = (true, w2) ∧
          acquire_loop pool e
          = (Some r, rest',
             {| world := w2;
                trace := trace e ++ reject_calls bad ++ [CallValidate r] |})
    end.
Proof.
  revert e. induction pool as [|r pool IH]; intros e.
  - exists [], [], (world e). split; [done|]. split; [constructor|].
    destruct e; cbn. by rewrite app_nil_r.
  - cbn. unfold call_validate.
    destruct (validate r (world e)) as [[] w1] eqn:Hv.
    + exists [], (r :: pool), (world e). split; [done|].
      split; [constructor|]. exists w1. by split.
    + destruct (IH (call_destroy r
        {| world := w1; trace := trace e ++ [CallValidate r] |}))
        as (bad & rest & w2 & -> & Hrej & Hres).
      exists (r :: bad), rest, w2. split; [done|].
      split; [by econstructor|].
      cbn in Hres. rewrite <- !app_assoc in Hres. cbn in Hres.
      destruct rest as [|r' rest']; [done|].
      destruct Hres as (w3 & ? & Hres). exists w3. by rewrite <- app_assoc in Hres.
Qed.

(** ** [acquire] *)

(** [acquire] when [this._pools[key]] is an array or undefined. *)
Lemma acquire_cases key p :
  inherits key p = None →
  ∃ bad rest w1,
    default [] (_pools p !! key) = bad ++ rest ∧
    rejects bad (world (env p)) w1 ∧
    match rest with
    | r :: rest' =>
        ∃ w2, validate r w1 = (true, w2) ∧
          acquire key p
          = (inr r,
             {| _pools := <[key := rest']> (_pools p);
                env := {| world := w2;
                          trace := trace (env p) ++ reject_calls bad
                                   ++ [CallValidate r] |} |})
    | [] =>
        acquire key p
        = (thrown (create key w1).1,
           {| _pools := <[key := []]> (_pools p);
              env := {| world := (create key w1).2;
                        trace := trace (env p) ++ reject_calls bad
                                 ++ [CallCreate key] |} |})
    end.
Proof.
  intros Hplain.
  destruct (acquire_loop_spec (default [] (_pools p !! key)) (env p))
    as (bad & rest & w1 & Hsplit & Hrej & Hloop).
  exists bad, rest, w1. split; [done|]. split; [done|].
  unfold acquire. rewrite Hplain. destruct rest as [|r rest'].
  - rewrite Hloop. unfold call_create. cbn.
    destruct (create key w1) as [res w2]. cbn. by rewrite <- app_assoc.
  - destruct Hloop as (w2 & Hv & Hloop). exists w2. split; [done|].
    by rewrite Hloop.
Qed.

(** [acquire] when [this._pools[key]] is inherited. *)
Lemma acquire_inherited key p length :
  inherits key p = Some length →
  acquire key p
  = match length with
    | Some (S _) => (inl TypeError, p)
    | _ =>
        (thrown (create key (world (env p))).1,
         {| _pools := _pools p;
            env := {| world := (create key (world (env p))).2;
                      trace := trace (env p) ++ [CallCreate key] |} |})
    end.
Proof.
  intros Hin. unfold acquire. rewrite Hin. unfold call_create.
  destruct length as [[|n]|]; [|done|]; by destruct (create key (world (env p))).
Qed.

Lemma acquire_head key p r pool w2 :
  _pools p !! key = Some (r :: pool) →
  validate r (world (env p)) = (true, w2) →
  acquire key p
  = (inr r,
     {| _pools := <[key := pool]> (_pools p);
        env := {| world := w2; trace := trace (env p) ++ [CallValidate r] |} |}).
Proof.
  intros Hk Hv. unfold acquire. rewrite (inherits_own _ _ _ Hk), Hk. cbn.
  unfold call_validate. by rewrite Hv.
Qed.

Lemma acquire_empty key p :
  inherits key p = None →
  default [] (_pools p !! key) = [] →
  acquire key p
  = (thrown (create key (world (env p))).1,
     {| _pools := <[key := []]> (_pools p);
        env := {| world := (create key (world (env p))).2;
                  trace := trace (env p) ++ [CallCreate key] |} |}).
Proof.
  intros Hplain Hk. unfold acquire. rewrite Hplain, Hk. cbn. unfold call_create.
  by destruct (create key (world (env p))).
Qed.

(** What [acquire] does to the map and to the accounts, for every key. *)
Lemma acquire_account key p :
  ∃ bad rest ks,
    default [] (_pools p !! key) = bad ++ rest ∧
    reused key p = head rest ∧
    _pools (acquire key p).2
    = (if inherits key p is Some _ then _pools p
       else <[key := tail rest]> (_pools p)) ∧
    destroyed (trace (env (acquire key p).2))
    = destroyed (trace (env p)) ++ bad ∧
    created (trace (env (acquire key p).2)) = created (trace (env p)) ++ ks ∧
    ks `sublist_of` [key] ∧
    (rest ≠ [] → ks = []).
Proof.
  destruct (inherits key p) as [length|] eqn:Hin.
  - exists [], [].
    rewrite (acquire_inherited _ _ _ Hin). unfold reused.
    rewrite inherits_lookup by (by rewrite Hin).
    destruct length as [[|n]|].
    + exists [key]. read_trace. rewrite !app_nil_r. by split_and!.
    + exists []. cbn [snd]. rewrite !app_nil_r. split_and!; try done.
      apply sublist_nil_l.
    + exists [key]. read_trace. rewrite !app_nil_r. by split_and!.
  - destruct (acquire_loop_spec (default [] (_pools p !! key)) (env p))
      as (bad & rest & w1 & Hsplit & _ & Hloop).
    exists bad, rest. unfold reused, acquire. rewrite Hin.
    destruct rest as [|r rest'].
    + exists [key]. rewrite Hloop. unfold call_create. cbn [fst snd world trace].
      destruct (create key w1) as [res w2]. read_trace.
      rewrite destroyed_app, created_app, destroyed_reject_calls,
        created_reject_calls, !app_nil_r. rewrite app_nil_r in Hsplit.
      by split_and!.
    + exists []. destruct Hloop as (w2 & _ & ->). read_trace.
      rewrite ?app_assoc, destroyed_snoc_validate, created_snoc_validate.
      rewrite destroyed_app, created_app, destroyed_reject_calls,
        created_reject_calls, !app_nil_r. split_and!; try done.
      apply sublist_nil_l.
Qed.

Lemma acquire_pools key p :
  ∃ bad rest,
    default [] (_pools p !! key) = bad ++ rest ∧
    _pools (acquire key p).2
    = (if inherits key p is Some _ then _pools p
       else <[key := tail rest]> (_pools p)).
Proof.
  destruct (acquire_account key p) as (bad & rest & ks & Hsplit & _ & Hp & _).
  by exists bad, rest.
Qed.

Lemma acquire_lookup_ne key key' p :
  key ≠ key' → _pools (acquire key p).2 !! key' = _pools p !! key'.
Proof.
  intros Hne. destruct (acquire_pools key p) as (bad & rest & _ & ->).
  destruct (inherits key p); [done|]. by rewrite obj_lookup_insert_ne.
Qed.

(** [acquire] leaves [this._pools[key]] inherited if it was. *)
Lemma acquire_inherits key key' p :
  is_Some (inherits key' p) → inherits key' (acquire key p).2 = inherits key' p.
Proof.
  intros Hin. apply inherits_ext.
  destruct (decide (key = key')) as [->|Hne]; [|by apply acquire_lookup_ne].
  destruct (acquire_pools key' p) as (bad & rest & _ & ->).
  by destruct Hin as [length ->].
Qed.

Lemma acquire_has key p : has key (acquire key p).2 = true.
Proof.
  destruct (acquire_pools key p) as (bad & rest & _ & Hp). unfold has.
  destruct (inherits key p) as [length|] eqn:Hin.
  - apply inherits_Some in Hin as [_ Hproto]. rewrite Hproto.
    apply orb_true_iff. right. by apply bool_decide_eq_true.
  - rewrite Hp, obj_lookup_insert_eq. by rewrite bool_decide_eq_true_2.
Qed.

(** ** [_release] *)

Lemma release_absent key r p :
  _pools p !! key = None → Object_prototype key = None →
  _release key r p
  = (None, {| _pools := _pools p; env := call_destroy r (env p) |}).
Proof.
  intros Hk Hproto. unfold _release. by rewrite inherits_plain, Hk.
Qed.

Lemma release_full key r p pool :
  _pools p !! key = Some pool → maxIdle ≤ length pool →
  _release key r p
  = (None, {| _pools := _pools p; env := call_destroy r (env p) |}).
Proof.
  intros Hk Hfull. unfold _release. rewrite (inherits_own _ _ _ Hk), Hk.
  by rewrite (proj2 (Nat.leb_le _ _) Hfull).
Qed.

Lemma release_invalid key r p pool w1 :
  _pools p !! key = Some pool → length pool < maxIdle →
  validate r (world (env p)) = (false, w1) →
  _release key r p
  = (None,
     {| _pools := _pools p;
        env := call_destroy r
                 {| world := w1; trace := trace (env p) ++ [CallValidate r] |} |}).
Proof.
  intros Hk Hroom Hv. unfold _release. rewrite (inherits_own _ _ _ Hk), Hk.
  rewrite (proj2 (Nat.leb_gt _ _) Hroom). unfold call_validate.
  by rewrite Hv.
Qed.

Lemma release_push key r p pool w1 :
  _pools p !! key = Some pool → length pool < maxIdle →
  validate r (world (env p)) = (true, w1) →
  _release key r p
  = (None,
     {| _pools := <[key := r :: pool]> (_pools p);
        env := {| world := w1; trace := trace (env p) ++ [CallValidate r] |} |}).
Proof.
  intros Hk Hroom Hv. unfold _release. rewrite (inherits_own _ _ _ Hk), Hk.
  rewrite (proj2 (Nat.leb_gt _ _) Hroom). unfold call_validate.
  by rewrite Hv.
Qed.

(** The three ways [_release] ends, for every key: the resource is
    destroyed, or stored, or lost in a [TypeError]. *)
Lemma release_cases key r p :
  ((_release key r p).1 = None ∧
   _pools (_release key r p).2 = _pools p ∧
   destroyed (trace (env (_release key r p).2))
   = destroyed (trace (env p)) ++ [r] ∧
   created (trace (env (_release key r p).2)) = created (trace (env p))) ∨
  (∃ pool,
     _pools p !! key = Some pool ∧ length pool < maxIdle ∧
     (_release key r p).1 = None ∧
     _pools (_release key r p).2 = <[key := r :: pool]> (_pools p) ∧
     destroyed (trace (env (_release key r p).2))
     = destroyed (trace (env p)) ∧
     created (trace (env (_release key r p).2)) = created (trace (env p))) ∨
  (is_Some (inherits key p) ∧
   (_release key r p).1 = Some TypeError ∧
   _pools (_release key r p).2 = _pools p ∧
   destroyed (trace (env (_release key r p).2)) = destroyed (trace (env p)) ∧
   created (trace (env (_release key r p).2)) = created (trace (env p))).
Proof.
  destruct (inherits key p) as [len|] eqn:Hin.
  - unfold _release. rewrite Hin.
    destruct (match len with Some n => maxIdle <=? n | None => false end).
    + left. by read_trace.
    + unfold call_validate.
      destruct (validate r (world (env p))) as [[] w1].
      * right. right. split; [by eexists|]. by read_trace.
      * left. by read_trace.
  - destruct (_pools p !! key) as [pool|] eqn:Hk.
    + destruct (decide (maxIdle ≤ length pool)) as [Hfull|Hroom].
      * left. rewrite (release_full _ _ _ _ Hk Hfull). by read_trace.
      * apply Nat.nle_gt in Hroom.
        destruct (validate r (world (env p))) as [[] w1] eqn:Hv.
        -- right. left. exists pool.
           rewrite (release_push _ _ _ _ _ Hk Hroom Hv). by read_trace.
        -- left. rewrite (release_invalid _ _ _ _ _ Hk Hroom Hv).
           by read_trace.
    + left. unfold _release. rewrite Hin, Hk. by read_trace.
Qed.

(** What [_release] does to the map, whatever the branch. *)
Lemma release_pools key r p :
  _pools (_release key r p).2 = _pools p ∨
  ∃ pool, _pools p !! key = Some pool ∧ length pool < maxIdle ∧
          _pools (_release key r p).2 = <[key := r :: pool]> (_pools p).
Proof.
  destruct (release_cases key r p)
    as [(_ & -> & _)|[(pool & Hk & Hroom & _ & -> & _)|(_ & _ & -> & _)]];
    [by left| |by left].
  right. by exists pool.
Qed.

Lemma release_lookup_ne key key' r p :
  key ≠ key' → _pools (_release key r p).2 !! key' = _pools p !! key'.
Proof.
  intros Hne. destruct (release_pools key r p) as [->|(pool & _ & _ & ->)].
  - done.
  - by rewrite obj_lookup_insert_ne.
Qed.

Lemma release_is_Some key key' r p :
  is_Some (_pools (_release key r p).2 !! key') ↔ is_Some (_pools p !! key').
Proof.
  destruct (release_pools key r p) as [->|(pool & Hk & _ & ->)]; [done|].
  destruct (decide (key = key')) as [<-|Hne].
  - rewrite obj_lookup_insert_eq, Hk. by split; eexists.
  - by rewrite obj_lookup_insert_ne.
Qed.

Lemma release_has key key' r p : has key' (_release key r p).2 = has key' p.
Proof.
  unfold has. f_equal. apply bool_decide_ext, release_is_Some.
Qed.

Lemma release_lookup_eq key r p :
  _pools (_release key r p).2 !! key
  = match _pools p !! key with
    | None => None
    | Some pool =>
        if maxIdle <=? length pool then Some pool
        else if (validate r (world (env p))).1 then Some (r :: pool)
             else Some pool
    end.
Proof.
  destruct (_pools p !! key) as [pool|] eqn:Hk.
  - unfold _release. rewrite (inherits_own _ _ _ Hk), Hk.
    destruct (maxIdle <=? length pool); cbn; [done|].
    unfold call_validate.
    destruct (validate r (world (env p))) as [[] w1]; cbn; [|done].
    by rewrite obj_lookup_insert_eq.
  - destruct (release_pools key r p) as [->|(pool & Hk' & _)]; [done|].
    congruence.
Qed.

Lemma always_valid r w :
  (∀ r' w', (validate r' w').1 = true) → ∃ w1, validate r w = (true, w1).
Proof.
  intros Hvalid. specialize (Hvalid r w).
  destruct (validate r w) as [b w1]. cbn in Hvalid. subst b. by exists w1.
Qed.

(** ** [purge] and [purgeAll] *)

Lemma purge_loop_spec pool e :
  purge_loop pool e
  = {| world := foldl (λ w r, destroy r w) (world e) pool;
       trace := trace e ++ (CallDestroy <$> pool) |}.
Proof.
  revert e. induction pool as [|r pool IH]; intros e.
  - destruct e. cbn. by rewrite app_nil_r.
  - cbn. rewrite IH. cbn. by rewrite <- app_assoc.
Qed.

Lemma purge_loop_app pool1 pool2 e :
  purge_loop (pool1 ++ pool2) e = purge_loop pool2 (purge_loop pool1 e).
Proof.
  revert e. induction pool1 as [|r pool1 IH]; intros e; [done|]. cbn. apply IH.
Qed.

(** The state in which [purge] leaves the pool, for every key. *)
Lemma purge_state key p :
  (purge key p).2
  = {| _pools := delete key (_pools p);
       env := purge_loop (default [] (_pools p !! key)) (env p) |}.
Proof.
  unfold purge. destruct (inherits key p) as [[[|n]|]|] eqn:Hin; try done.
  apply inherits_Some in Hin as [Hk _]. rewrite Hk, obj_delete_id by done.
  by destruct p.
Qed.

Lemma purge_result key p :
  (purge key p).1
  = match inherits key p with
    | Some (Some (S _)) => Some TypeError
    | _ => None
    end.
Proof. unfold purge. by destruct (inherits key p) as [[[|n]|]|]. Qed.

Lemma purge_own key p :
  is_Some (_pools p !! key) → (purge key p).1 = None.
Proof.
  intros [pool Hk]. by rewrite purge_result, (inherits_own _ _ _ Hk).
Qed.

Lemma purge_lookup key key' p :
  _pools (purge key p).2 !! key'
  = if decide (key = key') then None else _pools p !! key'.
Proof. rewrite purge_state. apply obj_lookup_delete. Qed.

Lemma purge_trace key p :
  trace (env (purge key p).2)
  = trace (env p) ++ (CallDestroy <$> default [] (_pools p !! key)).
Proof. rewrite purge_state. cbn [env]. by rewrite purge_loop_spec. Qed.

Lemma purge_id key p : _pools p !! key = None → (purge key p).2 = p.
Proof.
  intros Hk. rewrite purge_state, Hk, obj_delete_id by done. by destruct p.
Qed.

Lemma bind_ext_in {A B} (f g : A → list B) (l : list A) :
  (∀ x, x ∈ l → f x = g x) → l ≫= f = l ≫= g.
Proof.
  induction l as [|x l IH]; intros Hfg; [done|].
  rewrite !bind_cons, (Hfg x), IH; [done| |by left].
  intros y Hy. apply Hfg. by right.
Qed.

(** Purging distinct keys that are own properties: no exception, every key
    is removed, and the idle-lists are destroyed one after the other. *)
Lemma purge_each_own (keys : list string) p :
  NoDup keys →
  (∀ k, k ∈ keys → is_Some (_pools p !! k)) →
  (purge_each keys p).1 = None ∧
  (∀ key, _pools (purge_each keys p).2 !! key
          = if decide (key ∈ keys) then None else _pools p !! key) ∧
  env (purge_each keys p).2
  = purge_loop (keys ≫= λ k, default [] (_pools p !! k)) (env p).
Proof.
  revert p. induction keys as [|k keys IH]; intros p Hnd Hown.
  - cbn. split; [done|]. split; [|done]. intros key.
    rewrite decide_False; [done|]. apply not_elem_of_nil.
  - apply NoDup_cons in Hnd as [Hk Hnd]. cbn [purge_each].
    pose proof (purge_own k p (Hown k ltac:(by left))) as Hok.
    destruct (purge k p) as [res p1] eqn:Hp. cbn in Hok. subst res.
    assert (p1 = (purge k p).2) as -> by (by rewrite Hp).
    destruct (IH (purge k p).2 Hnd) as (Hres & Hlook & Henv).
    { intros k' Hk'. rewrite purge_lookup, decide_False by (by intros ->).
      apply Hown. by right. }
    split; [done|]. split.
    + intros key. rewrite Hlook, purge_lookup.
      destruct (decide (key ∈ keys)) as [Hin|Hnin].
      * rewrite decide_True; [done|]. by right.
      * destruct (decide (k = key)) as [->|Hne].
        -- rewrite decide_True; [done|]. by left.
        -- rewrite decide_False; [done|].
           intros [?|?]%elem_of_cons; congruence.
    + rewrite Henv, purge_state. cbn [env]. rewrite bind_cons, purge_loop_app.
      f_equal. apply bind_ext_in. intros k' Hk'. cbn [_pools].
      rewrite obj_lookup_delete, decide_False; [done|]. by intros ->.
Qed.

Lemma purgeAll_result p : (purgeAll p).1 = None.
Proof.
  apply purge_each_own; [apply NoDup_Object_keys|].
  intros k. apply elem_of_Object_keys.
Qed.

Lemma purgeAll_pools p : _pools (purgeAll p).2 = ∅.
Proof.
  apply obj_empty_lookup. intros key.
  destruct (purge_each_own (Object_keys (_pools p)) p) as (_ & -> & _).
  - apply NoDup_Object_keys.
  - intros k. apply elem_of_Object_keys.
  - case_decide as Hin; [done|]. rewrite elem_of_Object_keys in Hin.
    destruct (_pools p !! key) as [pool|]; [|done]. destruct Hin. by exists pool.
Qed.

Lemma purgeAll_env p : env (purgeAll p).2 = purge_loop (idle p) (env p).
Proof.
  apply purge_each_own; [apply NoDup_Object_keys|].
  intros k. apply elem_of_Object_keys.
Qed.

Lemma purgeAll_trace p :
  trace (env (purgeAll p).2) = trace (env p) ++ (CallDestroy <$> idle p).
Proof. by rewrite purgeAll_env, purge_loop_spec. Qed.

(** ** The bound on idle-lists *)

Lemma bounded_new w : bounded (new_Pool (R:=R) w).
Proof. intros key pool. cbn. by rewrite obj_lookup_empty. Qed.

Lemma bounded_acquire key p : bounded p → bounded (acquire key p).2.
Proof.
  intros Hb key' pool'.
  destruct (acquire_pools key p) as (bad & rest & Hsplit & ->).
  destruct (inherits key p); [apply Hb|].
  destruct (decide (key = key')) as [<-|Hne].
  - rewrite obj_lookup_insert_eq. intros [= <-].
    destruct (_pools p !! key) as [pool|] eqn:Hk; cbn in Hsplit.
    + specialize (Hb key pool Hk). subst pool. rewrite length_app in Hb.
      destruct rest; cbn in *; lia.
    + symmetry in Hsplit. apply app_eq_nil in Hsplit as [_ ->]. cbn. lia.
  - rewrite obj_lookup_insert_ne by done. apply Hb.
Qed.

Lemma bounded_release key r p : bounded p → bounded (_release key r p).2.
Proof.
  intros Hb key' pool'.
  destruct (release_pools key r p) as [->|(pool & Hk & Hroom & ->)].
  - apply Hb.
  - destruct (decide (key = key')) as [<-|Hne].
    + rewrite obj_lookup_insert_eq. intros [= <-]. cbn. lia.
    + rewrite obj_lookup_insert_ne by done. apply Hb.
Qed.

Lemma bounded_purge key p : bounded p → bounded (purge key p).2.
Proof.
  intros Hb key' pool'. rewrite purge_lookup.
  case_decide; [done|]. apply Hb.
Qed.

Lemma bounded_purgeAll p : bounded (purgeAll p).2.
Proof. intros key pool. by rewrite purgeAll_pools, obj_lookup_empty. Qed.

Lemma bounded_exec o p : bounded p → bounded (exec o p).
Proof.
  destruct o; cbn [exec];
    auto using bounded_acquire, bounded_release, bounded_purge,
      bounded_purgeAll.
Qed.

Lemma reachable_bounded p : reachable p → bounded p.
Proof. induction 1; auto using bounded_new, bounded_exec. Qed.

Lemma reachable_run os p : reachable p → reachable (run os p).
Proof.
  revert p. induction os as [|o os IH]; intros p Hp; [done|].
  cbn. apply IH. by constructor.
Qed.

(** ** Runs *)

Lemma run_snoc os o p : run (os ++ [o]) p = exec o (run os p).
Proof. unfold run. by rewrite foldl_snoc. Qed.

Lemma run_cons os o p : run (o :: os) p = run os (exec o p).
Proof. reflexivity. Qed.

(** ** [has] *)

Lemma has_inherited key p : is_Some (Object_prototype key) → has key p = true.
Proof.
  intros Hproto. unfold has. apply orb_true_iff. right.
  by apply bool_decide_eq_true.
Qed.

Lemma has_plain key p :
  Object_prototype key = None →
  has key p = bool_decide (is_Some (_pools p !! key)).
Proof.
  intros Hproto. unfold has. rewrite Hproto.
  rewrite (bool_decide_eq_false_2 (is_Some None)) by (by intros [? ?]).
  apply orb_false_r.
Qed.

Lemma has_exec key o p :
  Object_prototype key = None →
  has key (exec o p)
  = if acquires key o then true
    else if purges key o then false else has key p.
Proof.
  intros Hproto. destruct o as [k|k r|k| |k]; cbn [exec acquires purges].
  - case_bool_decide as Hk.
    + subst. apply acquire_has.
    + rewrite !has_plain by done. by rewrite acquire_lookup_ne.
  - apply release_has.
  - rewrite !has_plain by done. rewrite purge_lookup.
    destruct (decide (k = key)) as [->|Hne].
    + rewrite (bool_decide_eq_true_2 (key = key)) by done.
      apply bool_decide_eq_false. by intros [? ?].
    + by rewrite (bool_decide_eq_false_2 (k = key)).
  - rewrite has_plain, purgeAll_pools, obj_lookup_empty by done.
    apply bool_decide_eq_false. by intros [? ?].
  - done.
Qed.

Lemma has_run_no_acquire key os p :
  Object_prototype key = None →
  has key p = false →
  Forall (λ o, acquires key o = false) os →
  has key (run os p) = false.
Proof.
  intros Hproto Hp Hos. revert p Hp.
  induction Hos as [|o os Ho _ IH]; intros p Hp; [done|].
  cbn. apply IH. rewrite has_exec, Ho, Hp by done. by destruct (purges key o).
Qed.

Lemma snoc_eq_middle {A} (l before after : list A) x y :
  l ++ [x] = before ++ y :: after →
  (after = [] ∧ x = y ∧ l = before) ∨
  (∃ after', after = after' ++ [x] ∧ l = before ++ y :: after').
Proof.
  destruct after as [|a after' _] using rev_ind.
  - intros [-> ->]%app_inj_tail. by left.
  - intros H. right. exists after'.
    change (before ++ y :: after' ++ [a])
      with (before ++ (y :: after') ++ [a]) in H.
    rewrite app_assoc in H. apply app_inj_tail in H as [-> ->]. done.
Qed.

Lemma acquires_same key : acquires (R:=R) key (Acquire key) = true.
Proof. cbn. by apply bool_decide_eq_true. Qed.

(** For a key that is not an inherited name, [has] tells whether the key
    was acquired and not purged since. *)
Lemma has_run_new key os (w : W) :
  Object_prototype key = None →
  has key (run os (new_Pool w)) = true ↔
  ∃ before after,
    os = before ++ Acquire key :: after ∧
    Forall (λ o, purges key o = false) after.
Proof.
  intros Hproto. induction os as [|o os IH] using rev_ind.
  - rewrite has_plain by done. split; [done|].
    intros (before & after & H & _). by destruct before.
  - rewrite run_snoc, has_exec by done.
    destruct (acquires key o) eqn:Hacq; [|destruct (purges key o) eqn:Hpur].
    + split; [|done]. intros _. destruct o; try done. cbn in Hacq.
      apply bool_decide_eq_true in Hacq as ->.
      exists os, []. split; [done|constructor].
    + split; [done|]. intros (before & after & H & Hafter).
      apply snoc_eq_middle in H as [(-> & -> & _)|(after' & -> & _)].
      * by rewrite acquires_same in Hacq.
      * apply Forall_app in Hafter as [_ Hlast].
        inversion Hlast; congruence.
    + rewrite IH. split.
      * intros (before & after & -> & Hafter).
        exists before, (after ++ [o]). split; [by rewrite <- app_assoc|].
        apply Forall_app. split; [done|]. by constructor.
      * intros (before & after & H & Hafter).
        apply snoc_eq_middle in H as [(-> & -> & _)|(after' & -> & ->)].
        -- by rewrite acquires_same in Hacq.
        -- exists before, after'. split; [done|].
           by apply Forall_app in Hafter as [? _].
Qed.

(** ** More on [_release] and [acquire] *)

(** Releasing [rs] one after the other under a validator that accepts
    everything: the first ones fill the room left, the others are destroyed. *)
Lemma release_many key rs p pool :
  (∀ r w, (validate r w).1 = true) →
  _pools p !! key = Some pool → length pool ≤ maxIdle →
  _pools (run (Release key <$> rs) p) !! key
  = Some (rev (take (maxIdle - length pool) rs) ++ pool) ∧
  destroyed (trace (env (run (Release key <$> rs) p)))
  = destroyed (trace (env p)) ++ drop (maxIdle - length pool) rs.
Proof.
  intros Hvalid. revert p pool.
  induction rs as [|r rs IH]; intros p pool Hk Hlen.
  - cbn. by rewrite take_nil, drop_nil, app_nil_r.
  - rewrite fmap_cons, run_cons. cbn [exec].
    destruct (decide (maxIdle ≤ length pool)) as [Hfull|Hroom].
    + rewrite (release_full _ _ _ _ Hk Hfull). cbn [snd].
      destruct (IH {| _pools := _pools p; env := call_destroy r (env p) |}
                  pool Hk Hlen) as [-> ->].
      replace (maxIdle - length pool) with 0 by lia.
      rewrite !take_0, !drop_0. split; [done|].
      read_trace. by rewrite <- app_assoc.
    + apply Nat.nle_gt in Hroom.
      destruct (always_valid r (world (env p)) Hvalid) as [w1 Hv].
      rewrite (release_push _ _ _ _ _ Hk Hroom Hv). cbn [snd].
      destruct (IH {| _pools := <[key := r :: pool]> (_pools p);
                      env := {| world := w1;
                                trace := trace (env p) ++ [CallValidate r] |} |}
                  (r :: pool)) as [-> ->].
      * cbn. by rewrite obj_lookup_insert_eq.
      * cbn. lia.
      * replace (maxIdle - length pool)
          with (S (maxIdle - length (r :: pool))) by (cbn; lia).
        read_trace. rewrite firstn_cons, skipn_cons. cbn [rev].
        split; [|done]. by rewrite <- app_assoc.
Qed.

(** After [acquire] there is room for one more idle resource. *)
Lemma acquire_room key p :
  inherits key p = None →
  bounded p → 0 < maxIdle →
  ∃ pool', _pools (acquire key p).2 !! key = Some pool' ∧
           length pool' < maxIdle.
Proof.
  intros Hplain Hb Hidle.
  destruct (acquire_pools key p) as (bad & rest & Hsplit & ->).
  rewrite Hplain.
  exists (tail rest). rewrite obj_lookup_insert_eq. split; [done|].
  destruct (_pools p !! key) as [pool|] eqn:Hk; cbn in Hsplit.
  - specialize (Hb key pool Hk). subst pool. rewrite length_app in Hb.
    destruct rest; cbn in *; lia.
  - symmetry in Hsplit. apply app_eq_nil in Hsplit as [_ ->]. done.
Qed.

(** [purge] of a key that is unknown and not an inherited name. *)
Lemma purge_absent_plain key p :
  _pools p !! key = None → Object_prototype key = None →
  purge key p = (None, p).
Proof.
  intros Hk Hproto. rewrite (surjective_pairing (purge key p)).
  by rewrite purge_result, inherits_plain, purge_id.
Qed.

(** * Properties of the specification *)

(** C1: at the names that every object inherits from [Object.prototype],
    [acquire] does not do what it does for the other keys.  On a new pool,
    [acquire "hasOwnProperty"] throws a [TypeError] and calls nothing, and
    [acquire "toString"] returns what [create] returns but stores no
    idle-list for the key. *)
Theorem acquire_inherited_names (w : W) :
  acquire "hasOwnProperty" (new_Pool w) = (inl TypeError, new_Pool w) ∧
  acquire "toString" (new_Pool w)
  = (thrown (create "toString" w).1,
     {| _pools := ∅;
        env := {| world := (create "toString" w).2;
                  trace := [CallCreate "toString"] |} |}).
Proof.
  split.
  - by rewrite (acquire_inherited "hasOwnProperty" (new_Pool w) (Some 1)).
  - by rewrite (acquire_inherited "toString" (new_Pool w) (Some 0)).
Qed.

(** C3: in every state the pool can reach from its construction, after any
    of [acquire], [_release], [purge], [purgeAll] and [has] has completed,
    the idle-list of every key that is present holds at most [maxIdle]
    resources. *)
Theorem idle_list_bounded p o key pool :
  reachable p →
  _pools (exec o p) !! key = Some pool →
  length pool ≤ maxIdle.
Proof.
  intros Hp. apply (reachable_bounded (exec o p)). by constructor.
Qed.

(** C2, amended: when the idle-list of [key] exists, [_release key r]
    destroys [r] and leaves the map as it is if the list already holds
    [maxIdle] resources or more, or if the validator refuses [r]; otherwise
    it pushes [r] on the list and destroys nothing.  Consequently, when the
    idle-list of [key] is empty and the validator accepts everything,
    releasing [maxIdle + 1] resources for [key] keeps the first [maxIdle]
    idle and makes exactly one call of [destroy], on the last. *)
Theorem release_spec key r p pool :
  _pools p !! key = Some pool →
  (maxIdle ≤ length pool ∨ (validate r (world (env p))).1 = false →
     _pools (_release key r p).2 = _pools p ∧
     destroyed (trace (env (_release key r p).2))
     = destroyed (trace (env p)) ++ [r]) ∧
  (length pool < maxIdle → (validate r (world (env p))).1 = true →
     _pools (_release key r p).2 = <[key := r :: pool]> (_pools p) ∧
     destroyed (trace (env (_release key r p).2))
     = destroyed (trace (env p))) ∧
  (pool = [] → (∀ r' w, (validate r' w).1 = true) →
     ∀ first last,
       length first = maxIdle →
       _pools (run (Release key <$> first ++ [last]) p) !! key
       = Some (rev first) ∧
       destroyed (trace (env (run (Release key <$> first ++ [last]) p)))
       = destroyed (trace (env p)) ++ [last]).
Proof.
  intros Hk. split; [|split].
  - intros Hcase.
    destruct (decide (maxIdle ≤ length pool)) as [Hfull|Hroom].
    + rewrite (release_full _ _ _ _ Hk Hfull). split; [done|].
      by read_trace.
    + destruct Hcase as [?|Hv]; [done|]. apply Nat.nle_gt in Hroom.
      destruct (validate r (world (env p))) as [b w1] eqn:Hv'.
      cbn in Hv. subst b.
      rewrite (release_invalid _ _ _ _ _ Hk Hroom Hv'). split; [done|].
      by read_trace.
  - intros Hroom Hv.
    destruct (validate r (world (env p))) as [b w1] eqn:Hv'.
    cbn in Hv. subst b.
    rewrite (release_push _ _ _ _ _ Hk Hroom Hv'). split; [done|].
    by read_trace.
  - intros -> Hvalid first last Hlen.
    destruct (release_many key (first ++ [last]) p [] Hvalid Hk) as [-> ->].
    { cbn. lia. }
    cbn [length]. rewrite Nat.sub_0_r, <- Hlen.
    rewrite take_app_length, drop_app_length. by rewrite app_nil_r.
Qed.

(** C4, amended: for a key that is not an inherited name, in a pool that
    keeps at least one idle resource per key ([maxIdle >= 1]), if
    [acquire key] returns [r] and [r] is then released for [key], the next
    [acquire key] returns [r] itself and [create] is not called again,
    provided the validator accepts [r]. *)
Theorem reuse key p r p1 :
  Object_prototype key = None →
  reachable p →
  0 < maxIdle →
  (∀ w, (validate r w).1 = true) →
  acquire key p = (inr r, p1) →
  ∃ p3, acquire key (_release key r p1).2 = (inr r, p3) ∧
        created (trace (env p3)) = created (trace (env p1)).
Proof.
  intros Hproto Hreach Hidle Hvalid Hacq.
  destruct (acquire_room key p (inherits_plain _ _ Hproto)
              (reachable_bounded _ Hreach) Hidle) as (pool' & Hk & Hroom).
  rewrite Hacq in Hk. cbn in Hk.
  destruct (validate r (world (env p1))) as [b w1] eqn:Hv1.
  pose proof (Hvalid (world (env p1))) as Hb. rewrite Hv1 in Hb.
  cbn in Hb. subst b.
  rewrite (release_push _ _ _ _ _ Hk Hroom Hv1).
  destruct (validate r w1) as [b w2] eqn:Hv2.
  pose proof (Hvalid w1) as Hb. rewrite Hv2 in Hb. cbn in Hb. subst b.
  eexists. split.
  - apply acquire_head with (pool := pool'); [|exact Hv2].
    cbn. by rewrite obj_lookup_insert_eq.
  - by read_trace.
Qed.

(** C5: [purge] at the names inherited from [Object.prototype].  After
    [purge "toString"], whatever the state, [has "toString"] is still true;
    and [purge "hasOwnProperty"] on a new pool throws a [TypeError], calls
    nothing and leaves the pool as it was. *)
Theorem purge_inherited_names p (w : W) :
  has "toString" (purge "toString" p).2 = true ∧
  purge "hasOwnProperty" (new_Pool w) = (Some TypeError, new_Pool w).
Proof. split; [by apply has_inherited|done]. Qed.

(** C6: at an inherited name [_release] does not take the branch of the
    purged key.  For ["toString"], which has no idle-list, in a pool with
    [maxIdle >= 1] and for a resource that the validator accepts,
    [_release] calls [validate], throws a [TypeError], and does not call
    [destroy]. *)
Theorem release_inherited_name r p w1 :
  _pools p !! "toString" = None →
  0 < maxIdle →
  validate r (world (env p)) = (true, w1) →
  _release "toString" r p
  = (Some TypeError,
     {| _pools := _pools p;
        env := {| world := w1; trace := trace (env p) ++ [CallValidate r] |} |}).
Proof.
  intros Hk Hidle Hv. unfold _release, inherits. rewrite Hk.
  change (Object_prototype "toString") with (Some (Some 0)). cbv beta iota.
  rewrite (proj2 (Nat.leb_gt _ _) Hidle). unfold call_validate.
  by rewrite Hv.
Qed.

(** C7: [has] is true for every name inherited from [Object.prototype],
    on a new pool and after any run of operations, whether the key was
    acquired or not. *)
Theorem has_inherited_names key os (w : W) :
  is_Some (Object_prototype key) →
  has key (new_Pool (R:=R) w) = true ∧ has key (run os (new_Pool w)) = true.
Proof. intros Hproto. split; by apply has_inherited. Qed.


(** C9: an operation given key [A] leaves every other key [B] as it was:
    the idle-list of [B], whether [B] is present, and what a release for [B]
    then does to the list of [B] (given the same answer of the validator). *)
Theorem key_independence A B o p :
  A ≠ B →
  op_key o = Some A →
  _pools (exec o p) !! B = _pools p !! B ∧
  has B (exec o p) = has B p ∧
  (∀ r,
     (validate r (world (env (exec o p)))).1
     = (validate r (world (env p))).1 →
     _pools (_release B r (exec o p)).2 !! B
     = _pools (_release B r p).2 !! B).
Proof.
  intros Hne Hkey.
  assert (_pools (exec o p) !! B = _pools p !! B) as Hsame.
  { destruct o as [k|k r|k| |k]; cbn in Hkey; try injection Hkey as ->;
      try discriminate; cbn [exec].
    - by apply acquire_lookup_ne.
    - by apply release_lookup_ne.
    - rewrite purge_lookup. by rewrite decide_False.
    - done. }
  split; [done|]. split.
  - unfold has. by rewrite Hsame.
  - intros r Hv. by rewrite !release_lookup_eq, Hsame, Hv.
Qed.

(** C10: [purge] of a key that is not in the map is not always a no-op:
    ["hasOwnProperty"] is not in the map of a new pool, and
    [purge "hasOwnProperty"] throws a [TypeError]. *)
Theorem purge_absent_inherited_name (w : W) :
  _pools (new_Pool (R:=R) w) !! "hasOwnProperty" = None ∧
  purge "hasOwnProperty" (new_Pool w) = (Some TypeError, new_Pool w).
Proof. done. Qed.

End properties.

(** * The properties on the pools above *)

Section steady_runs.
#[local] Existing Instance steady.

Lemma steady_start_reachable : reachable steady_start.
Proof. apply reachable_run, reachable_new. Qed.

Lemma steady_full_reachable : reachable steady_full.
Proof. apply reachable_run, steady_start_reachable. Qed.

Lemma release_spec_witness :
  (_pools (_release "a" 0 steady_start).2
   = <["a" := [0]]> (_pools steady_start) ∧
   destroyed (trace (env (_release "a" 0 steady_start).2)) = []) ∧
  (_pools (run (Release "a" <$> [0; 1] ++ [2]) steady_start) !! "a"
   = Some [1; 0] ∧
   destroyed (trace (env (run (Release "a" <$> [0; 1] ++ [2]) steady_start)))
   = [2]).
Proof.
  destruct (release_spec "a" 0 steady_start [] eq_refl)
    as (_ & Hpush & Hmany).
  split.
  - apply Hpush; [vm_compute; lia | reflexivity].
  - apply (Hmany eq_refl (λ _ _, eq_refl) [0; 1] 2 eq_refl).
Defined.

Lemma steady_one_idle_reachable : reachable steady_one_idle.
Proof. apply reachable_run, reachable_new. Qed.

(** C2 as stated fails when the idle-list already holds a resource: with
    [maxIdle = 2], one idle resource and a validator that accepts
    everything, releasing three more resources makes two calls of
    [destroy]. *)
Lemma release_counterexample :
  reachable steady_one_idle ∧
  @maxIdle _ _ _ steady = 2 ∧
  (∀ r w, (validate r w).1 = true) ∧
  _pools steady_one_idle !! "a" = Some [0] ∧
  destroyed (trace (env steady_one_idle)) = [] ∧
  _pools (run (Release "a" <$> [1; 2; 3]) steady_one_idle) !! "a"
  = Some [1; 0] ∧
  destroyed (trace (env (run (Release "a" <$> [1; 2; 3]) steady_one_idle)))
  = [2; 3] ∧
  length (destroyed
            (trace (env (run (Release "a" <$> [1; 2; 3]) steady_one_idle))))
  ≠ 1.
Proof.
  split; [apply steady_one_idle_reachable|].
  split; [reflexivity|]. split; [done|].
  do 4 (split; [reflexivity|]). discriminate.
Qed.

Lemma idle_list_bounded_witness : length [1; 0] ≤ @maxIdle _ _ _ steady.
Proof.
  apply (idle_list_bounded steady_full (Release "a" 2) "a" [1; 0]).
  - apply steady_full_reachable.
  - reflexivity.
Defined.

Lemma reuse_witness :
  ∃ p3,
    acquire "a" (_release "a" 0 (acquire "a" (new_Pool 0)).2).2 = (inr 0, p3) ∧
    created (trace (env p3))
    = created (trace (env (acquire "a" (new_Pool 0)).2)).
Proof.
  apply (reuse "a" (new_Pool 0) 0 (acquire "a" (new_Pool 0)).2).
  - reflexivity.
  - apply reachable_new.
  - vm_compute. lia.
  - intros w. reflexivity.
  - reflexivity.
Defined.

Lemma release_inherited_name_witness :
  _release "toString" 5 (new_Pool 0)
  = (Some TypeError,
     {| _pools := _pools (new_Pool 0);
        env := {| world := 0;
                  trace := trace (env (new_Pool 0)) ++ [CallValidate 5] |} |}).
Proof.
  apply release_inherited_name.
  - reflexivity.
  - vm_compute. lia.
  - reflexivity.
Defined.

Lemma has_inherited_names_witness :
  has "toString" (new_Pool (R:=nat) 0) = true ∧
  has "toString" (run [Purge "toString"; PurgeAll] (new_Pool 0)) = true.
Proof. apply has_inherited_names. by eexists. Defined.

Lemma key_independence_witness :
  _pools (exec (Purge "a") (exec (Acquire "b") steady_full)) !! "b"
  = Some [] ∧
  has "b" (exec (Purge "a") (exec (Acquire "b") steady_full)) = true.
Proof.
  destruct (key_independence "a" "b" (Purge "a")
              (exec (Acquire "b") steady_full)) as (Hlist & Hhas & _).
  - discriminate.
  - reflexivity.
  - split; [exact Hlist | exact Hhas].
Defined.

End steady_runs.

Section no_idle_runs.
#[local] Existing Instance no_idle.

(** C4 as stated fails in a pool with [maxIdle = 0] whose validator accepts
    everything: the released resource is destroyed, and the next [acquire]
    calls [create] again and returns another resource. *)
Lemma reuse_counterexample :
  acquire "k" (new_Pool 0)
  = (inr 0, {| _pools := <["k" := []]> ∅;
               env := {| world := 1; trace := [CallCreate "k"] |} |}) ∧
  (∀ r w, (validate r w).1 = true) ∧
  acquire "k" (_release "k" 0 (acquire "k" (new_Pool 0)).2).2
  = (inr 1, {| _pools := <["k" := []]> ∅;
               env := {| world := 2;
                         trace := [CallCreate "k"; CallDestroy 0;
                                   CallCreate "k"] |} |}) ∧
  ¬ (∀ p1, acquire "k" (new_Pool 0) = (inr 0, p1) →
       ∃ p3, acquire "k" (_release "k" 0 p1).2 = (inr 0, p3) ∧
             created (trace (env p3)) = created (trace (env p1))).
Proof.
  split; [reflexivity|]. split; [done|]. split; [reflexivity|].
  intros Hclaim. destruct (Hclaim _ eq_refl) as (p3 & Hacq & _).
  vm_compute in Hacq. discriminate Hacq.
Qed.

End no_idle_runs.

Section expiring_runs.
#[local] Existing Instance expiring.




End expiring_runs.

(** * Further properties of the pool *)

Section further.
Context {R W E : Type} {args : PoolArgs R W E}.
Implicit Types (key : string) (p : Pool R W) (e : Env R W).
Implicit Types (pool bad rest rs : list R) (cs : list (call R)).
Implicit Types (o : op R) (os : list (op R)) (w : W).

(** ** [purgeAll] *)

(** X1: [purgeAll] never throws and leaves the pool without any own key,
    so that [has] is then true of the inherited names only.  The only calls
    it makes are one [destroy] per idle resource of the pool: key after key
    in the order of [Object.keys], each idle-list from its most recently
    pushed end. *)
Theorem purgeAll_spec p :
  (purgeAll p).1 = None ∧
  _pools (purgeAll p).2 = ∅ ∧
  (∀ key, has key (purgeAll p).2
          = bool_decide (is_Some (Object_prototype key))) ∧
  env (purgeAll p).2 = purge_loop (idle p) (env p) ∧
  trace (env (purgeAll p).2) = trace (env p) ++ (CallDestroy <$> idle p).
Proof.
  split; [apply purgeAll_result|]. split; [apply purgeAll_pools|].
  split; [|split; [apply purgeAll_env|apply purgeAll_trace]].
  intros key. unfold has. rewrite purgeAll_pools, obj_lookup_empty.
  by rewrite (bool_decide_eq_false_2 (is_Some None)) by (by intros [? ?]).
Qed.

(** X2: what [purgeAll] leaves and what it destroys do not depend on the
    order in which [Object.keys] lists the keys: purging the keys present in
    any other order leaves the same empty map and destroys the same
    resources, as many times each. *)
Theorem purgeAll_any_order p (keys : list string) :
  keys ≡ₚ Object_keys (_pools p) →
  _pools (purge_each keys p).2 = ∅ ∧
  destroyed (trace (env (purge_each keys p).2))
  ≡ₚ destroyed (trace (env (purgeAll p).2)).
Proof.
  intros Hperm.
  assert (NoDup keys) as Hnd.
  { rewrite Hperm. apply NoDup_Object_keys. }
  assert (∀ k, k ∈ keys → is_Some (_pools p !! k)) as Hown.
  { intros k. rewrite Hperm. apply elem_of_Object_keys. }
  destruct (purge_each_own keys p Hnd Hown) as (_ & Hlook & Henv).
  split.
  - apply obj_empty_lookup. intros k. rewrite Hlook.
    case_decide as Hin; [done|].
    rewrite Hperm, elem_of_Object_keys in Hin.
    destruct (_pools p !! k) as [pool|]; [|done]. destruct Hin. by exists pool.
  - rewrite Henv, purgeAll_trace, purge_loop_spec. cbn [trace].
    rewrite !destroyed_app, !destroyed_fmap_destroy. unfold idle.
    by rewrite Hperm.
Qed.

(** X3: purging again changes nothing.  [purge key] after [purge key],
    [purge key] after [purgeAll] and [purgeAll] after [purgeAll] leave the
    pool as it is, without any call of a callback, and the second
    [purgeAll] returns normally as the first did. *)
Theorem purge_again key p :
  (purge key (purge key p).2).2 = (purge key p).2 ∧
  (purge key (purgeAll p).2).2 = (purgeAll p).2 ∧
  purgeAll (purgeAll p).2 = purgeAll p.
Proof.
  split; [|split].
  - apply purge_id. by rewrite purge_lookup, decide_True.
  - apply purge_id. by rewrite purgeAll_pools, obj_lookup_empty.
  - rewrite (surjective_pairing (purgeAll p)) at 2.
    rewrite purgeAll_result.
    unfold purgeAll at 1. by rewrite purgeAll_pools, Object_keys_empty.
Qed.

(** ** Calls of [validate] *)

(** X4: [_release] calls [validate] at most once, and only when what it
    finds under the key is shorter than [maxIdle]: an idle-list with room
    left, or an inherited value whose [length] is undefined or below
    [maxIdle].  A resource released for a key that is unknown and not an
    inherited name, or into a full list, is destroyed without being
    validated. *)
Theorem release_validates key r p :
  validated (trace (env (_release key r p).2))
  = validated (trace (env p))
    ++ match inherits key p, _pools p !! key with
       | Some (Some n), _ => if maxIdle <=? n then [] else [r]
       | Some None, _ => [r]
       | None, Some pool => if maxIdle <=? length pool then [] else [r]
       | None, None => []
       end.
Proof.
  unfold _release. destruct (inherits key p) as [[n|]|].
  - destruct (maxIdle <=? n).
    + unfold call_destroy. cbn [snd env trace]. by rewrite validated_app.
    + unfold call_validate, call_destroy.
      destruct (validate r (world (env p))) as [[] w1]; cbn [snd env trace].
      * by rewrite validated_app.
      * rewrite !validated_app. cbn. by rewrite app_nil_r.
  - unfold call_validate, call_destroy.
    destruct (validate r (world (env p))) as [[] w1]; cbn [snd env trace].
    + by rewrite validated_app.
    + rewrite !validated_app. cbn. by rewrite app_nil_r.
  - destruct (_pools p !! key) as [pool|].
    + destruct (maxIdle <=? length pool).
      * unfold call_destroy. cbn [snd env trace]. by rewrite validated_app.
      * unfold call_validate, call_destroy.
        destruct (validate r (world (env p))) as [[] w1]; cbn [snd env trace].
        -- by rewrite validated_app.
        -- rewrite !validated_app. cbn. by rewrite app_nil_r.
    + unfold call_destroy. cbn [snd env trace]. by rewrite validated_app.
Qed.

(** ** Accounting for every resource *)

Lemma idle_map_split (m : object (list R)) key :
  Object_keys m ≫= (λ k, default [] (m !! k))
  ≡ₚ default [] (m !! key)
     ++ (Object_keys (delete key m) ≫= λ k, default [] (delete key m !! k)).
Proof.
  rewrite !Object_keys_own_keys, (own_keys_delete m key), bind_app.
  apply Permutation_app.
  - destruct (m !! key) as [pool|] eqn:Hkey; [|done].
    cbn. by rewrite Hkey, app_nil_r.
  - erewrite bind_ext_in; [done|]. intros k Hk. cbn.
    rewrite obj_lookup_delete, decide_False; [done|]. intros ->.
    apply elem_of_own_keys in Hk as [? Hk].
    by rewrite obj_lookup_delete, decide_True in Hk.
Qed.

Lemma idle_map_insert (m : object (list R)) key pool :
  Object_keys (<[key := pool]> m) ≫= (λ k, default [] (<[key := pool]> m !! k))
  ≡ₚ pool ++ (Object_keys (delete key m) ≫= λ k, default [] (delete key m !! k)).
Proof.
  by rewrite (idle_map_split _ key), obj_lookup_insert_eq, obj_delete_insert_eq.
Qed.

Lemma idle_new w : idle (new_Pool (R:=R) w) = [].
Proof. reflexivity. Qed.

Lemma account_exec o p :
  idle (exec o p) ++ destroyed (trace (env (exec o p)))
  ++ handed_out o p ++ dropped o p
  ≡ₚ idle p ++ destroyed (trace (env p)) ++ taken_in o.
Proof.
  unfold idle.
  destruct o as [key|key r|key| |key]; cbn [exec handed_out taken_in dropped].
  - destruct (acquire_account key p)
      as (bad & rest & ks & Hsplit & -> & -> & -> & _).
    destruct (inherits key p) as [len|] eqn:Hin.
    + rewrite inherits_lookup in Hsplit by (by rewrite Hin).
      symmetry in Hsplit. apply app_eq_nil in Hsplit as [-> ->].
      cbn. solve_Permutation.
    + rewrite idle_map_insert, (idle_map_split (_pools p) key), Hsplit.
      destruct rest as [|r rest']; cbn [head tail option_list];
        solve_Permutation.
  - destruct (release_cases key r p)
      as [(-> & -> & -> & _)
         |[(pool & Hk & _ & -> & -> & -> & _)|(_ & -> & -> & -> & _)]].
    + solve_Permutation.
    + rewrite idle_map_insert, (idle_map_split (_pools p) key), Hk.
      cbn [default]. solve_Permutation.
    + solve_Permutation.
  - rewrite purge_trace, destroyed_app, destroyed_fmap_destroy.
    rewrite purge_state. cbn [_pools].
    rewrite (idle_map_split (_pools p) key). solve_Permutation.
  - rewrite purgeAll_pools, purgeAll_trace, destroyed_app,
      destroyed_fmap_destroy.
    unfold idle. rewrite Object_keys_empty. cbn [mbind list_bind].
    solve_Permutation.
  - solve_Permutation.
Qed.

Lemma taken_in_cons o os :
  (o :: os) ≫= taken_in = taken_in o ++ (os ≫= taken_in).
Proof. apply bind_cons. Qed.

Lemma account_run os p :
  idle (run os p) ++ destroyed (trace (env (run os p)))
  ++ run_handed_out os p ++ run_dropped os p
  ≡ₚ idle p ++ destroyed (trace (env p)) ++ (os ≫= taken_in).
Proof.
  revert p. induction os as [|o os IH]; intros p.
  - cbn. solve_Permutation.
  - rewrite run_cons, taken_in_cons. cbn [run_handed_out run_dropped].
    transitivity
      ((idle (exec o p) ++ destroyed (trace (env (exec o p)))
        ++ handed_out o p ++ dropped o p) ++ (os ≫= taken_in)).
    + transitivity
        ((idle (run os (exec o p))
          ++ destroyed (trace (env (run os (exec o p))))
          ++ run_handed_out os (exec o p) ++ run_dropped os (exec o p))
         ++ handed_out o p ++ dropped o p).
      * solve_Permutation.
      * rewrite IH. solve_Permutation.
    + rewrite account_exec. solve_Permutation.
Qed.

Lemma elem_of_taken_in r os :
  r ∈ os ≫= taken_in ↔ ∃ key, Release key r ∈ os.
Proof.
  rewrite list_elem_of_bind. split.
  - intros (o & Hr & Ho). destruct o as [k|k r'|k| |k]; cbn in Hr;
      try by apply elem_of_nil in Hr.
    apply list_elem_of_singleton in Hr as ->. by exists k.
  - intros (key & Ho). exists (Release key r). split; [|done].
    cbn. by left.
Qed.

Lemma dropped_plain o p :
  (∀ key r, o = Release key r → Object_prototype key = None) →
  dropped o p = [].
Proof.
  destruct o as [k|k r|k| |k]; try done. intros Hplain. cbn.
  destruct (release_cases k r p)
    as [(-> & _)|[(pool & _ & _ & -> & _)|([len Hin] & _)]]; [done..|].
  apply inherits_Some in Hin as [_ Hin].
  rewrite (Hplain k r) in Hin; done.
Qed.

Lemma run_dropped_plain os p :
  (∀ key r, Release key r ∈ os → Object_prototype key = None) →
  run_dropped os p = [].
Proof.
  revert p. induction os as [|o os IH]; intros p Hplain; [done|].
  cbn [run_dropped]. rewrite dropped_plain, IH; [done| |].
  - intros key r Hin. apply (Hplain key r). by right.
  - intros key r ->. apply (Hplain key r). by left.
Qed.

Lemma reused_acquire key p :
  match reused key p with
  | Some r =>
      (acquire key p).1 = inr r ∧
      created (trace (env (acquire key p).2)) = created (trace (env p))
  | None => True
  end.
Proof.
  destruct (acquire_account key p)
    as (bad & rest & ks & Hsplit & Hre & _ & _ & Hc & _ & Hks).
  rewrite Hre. destruct rest as [|r rest']; cbn [head]; [done|].
  rewrite Hc, (Hks ltac:(done)), app_nil_r. split; [|done].
  assert (inherits key p = None) as Hplain.
  { destruct (inherits key p) eqn:Hin; [|done].
    rewrite inherits_lookup in Hsplit by (by rewrite Hin).
    by destruct bad. }
  unfold reused in Hre. unfold acquire. rewrite Hplain.
  destruct (acquire_loop (default [] (_pools p !! key)) (env p))
    as [[found pool'] e1].
  cbn in Hre. by subst found.
Qed.

(** X6: no resource is lost or duplicated but by a [TypeError].  After any
    run of operations on a new pool, the resources released to the pool
    are, counted with their multiplicities, exactly those that are idle,
    those the pool has destroyed, those [acquire] has handed out again from
    an idle-list ([reused_acquire] relates them to the results of
    [acquire]), and those that a [_release] has left behind by throwing; and
    no [_release] throws when no key released to is an inherited name. *)
Theorem no_resource_lost os w :
  idle (run os (new_Pool w))
  ++ destroyed (trace (env (run os (new_Pool w))))
  ++ run_handed_out os (new_Pool w)
  ++ run_dropped os (new_Pool w)
  ≡ₚ os ≫= taken_in ∧
  ((∀ key r, Release key r ∈ os → Object_prototype key = None) →
   idle (run os (new_Pool w))
   ++ destroyed (trace (env (run os (new_Pool w))))
   ++ run_handed_out os (new_Pool w)
   ≡ₚ os ≫= taken_in).
Proof.
  pose proof (account_run os (new_Pool w)) as Hacc.
  rewrite idle_new in Hacc. split; [done|].
  intros Hplain. rewrite <- Hacc, run_dropped_plain by done.
  by rewrite app_nil_r.
Qed.

(** X7: the pool destroys only what was released to it.  After any run of
    operations on a new pool, every resource passed to [destroy] was passed
    to [_release] in that run, and there are at most as many calls of
    [destroy] as of [_release]. *)
Theorem destroys_only_released os w :
  (∀ r, r ∈ destroyed (trace (env (run os (new_Pool w)))) →
        ∃ key, Release key r ∈ os) ∧
  length (destroyed (trace (env (run os (new_Pool w)))))
  ≤ length (os ≫= taken_in).
Proof.
  pose proof (account_run os (new_Pool w)) as Hacc.
  rewrite idle_new in Hacc. cbn [app trace env new_Pool destroyed omap] in Hacc.
  split.
  - intros r Hr. apply elem_of_taken_in. rewrite <- Hacc.
    apply elem_of_app. right. apply elem_of_app. by left.
  - rewrite <- Hacc, !length_app. lia.
Qed.

(** ** Where an idle resource comes from *)

Lemma idle_exec_origin key o p r :
  r ∈ default [] (_pools (exec o p) !! key) →
  r ∈ default [] (_pools p !! key) ∨ o = Release key r.
Proof.
  destruct o as [k|k r'|k| |k]; cbn [exec].
  - destruct (acquire_pools k p) as (bad & rest & Hsplit & ->).
    destruct (inherits k p); [by left|].
    destruct (decide (k = key)) as [->|Hne].
    + rewrite obj_lookup_insert_eq, Hsplit. cbn [default]. intros Hr. left.
      apply elem_of_app. right. destruct rest; [done|]. by right.
    + rewrite obj_lookup_insert_ne by done. by left.
  - destruct (release_pools k r' p) as [->|(pool & Hk & _ & ->)];
      [by left|].
    destruct (decide (k = key)) as [->|Hne].
    + rewrite obj_lookup_insert_eq, Hk. cbn [default].
      intros [->|Hr]%elem_of_cons; [by right|by left].
    + rewrite obj_lookup_insert_ne by done. by left.
  - rewrite purge_lookup. case_decide; [|by left].
    cbn. by intros ?%elem_of_nil.
  - rewrite purgeAll_pools, obj_lookup_empty. cbn. by intros ?%elem_of_nil.
  - by left.
Qed.

Lemma idle_run_origin key os p r :
  r ∈ default [] (_pools (run os p) !! key) →
  r ∈ default [] (_pools p !! key) ∨ Release key r ∈ os.
Proof.
  revert p. induction os as [|o os IH]; intros p; [by left|].
  rewrite run_cons. intros [Hr|Hos]%IH.
  - apply idle_exec_origin in Hr as [Hr| ->]; [by left|]. right. by left.
  - right. by right.
Qed.

(** X8: resources do not move between keys.  After any run of operations on
    a new pool, a resource in the idle-list of [key] was released with that
    very key in the run. *)
Theorem idle_was_released key os w pool r :
  _pools (run os (new_Pool w)) !! key = Some pool →
  r ∈ pool →
  Release key r ∈ os.
Proof.
  intros Hk Hr. destruct (idle_run_origin key os (new_Pool w) r) as [Hnew|Hos].
  - by rewrite Hk.
  - cbn in Hnew. by apply elem_of_nil in Hnew.
  - done.
Qed.

(** X9: after any run of operations on a new pool, a resource returned by
    [acquire key] was either released with that very key in the run, or is
    what [create] has just returned for [key]. *)
Theorem acquire_origin key os w r p' :
  acquire key (run os (new_Pool w)) = (inr r, p') →
  Release key r ∈ os ∨ ∃ w1, create key w1 = (inr r, world (env p')).
Proof.
  intros Hacq.
  destruct (inherits key (run os (new_Pool w))) as [len|] eqn:Hin.
  - right. exists (world (env (run os (new_Pool w)))).
    rewrite (acquire_inherited _ _ _ Hin) in Hacq.
    destruct (create key (world (env (run os (new_Pool w)))))
      as [[e|r'] w2]; destruct len as [[|n]|]; cbn in Hacq;
      try discriminate; by injection Hacq as -> <-.
  - destruct (acquire_cases key (run os (new_Pool w)) Hin)
      as (bad & rest & w1 & Hsplit & _ & Hres).
    destruct rest as [|r' rest'].
    + right. exists w1. rewrite Hacq in Hres. injection Hres as Hr ->.
      cbn [env world]. destruct (create key w1) as [[e|r'] w2];
        cbn in *; congruence.
    + left. destruct Hres as (w2 & _ & Hres). rewrite Hacq in Hres.
      injection Hres as -> _.
      destruct (idle_run_origin key os (new_Pool w) r') as [Hnew|Hos];
        [| |done].
      * rewrite Hsplit. apply elem_of_app. right. by left.
      * cbn in Hnew. by apply elem_of_nil in Hnew.
Qed.

(** ** Calls of [create] *)

Lemma created_exec o p :
  ∃ ks,
    created (trace (env (exec o p))) = created (trace (env p)) ++ ks ∧
    ks `sublist_of` acquired_keys [o].
Proof.
  destruct o as [k|k r|k| |k]; cbn [exec].
  - destruct (acquire_account k p)
      as (bad & rest & ks & _ & _ & _ & _ & -> & Hks & _).
    by exists ks.
  - exists []. rewrite app_nil_r. split; [|done].
    by destruct (release_cases k r p)
      as [(_ & _ & _ & ->)
         |[(? & _ & _ & _ & _ & _ & ->)|(_ & _ & _ & _ & ->)]].
  - exists []. split; [|done].
    by rewrite purge_trace, created_app, created_fmap_destroy.
  - exists []. split; [|done].
    by rewrite purgeAll_trace, created_app, created_fmap_destroy.
  - exists []. by rewrite app_nil_r.
Qed.

Lemma created_run os p :
  ∃ ks,
    created (trace (env (run os p))) = created (trace (env p)) ++ ks ∧
    ks `sublist_of` acquired_keys os.
Proof.
  revert p. induction os as [|o os IH]; intros p.
  - exists []. by rewrite app_nil_r.
  - rewrite run_cons.
    destruct (IH (exec o p)) as (ks2 & -> & Hks2).
    destruct (created_exec o p) as (ks1 & -> & Hks1).
    exists (ks1 ++ ks2). split; [by rewrite app_assoc|].
    change (o :: os) with ([o] ++ os). unfold acquired_keys.
    rewrite omap_app. by apply sublist_app.
Qed.

(** X10: only [acquire] calls [create], at most once per call and with its
    own key: in any run on a new pool, the keys [create] was called with
    are, in order, a subsequence of the keys [acquire] was called with. *)
Theorem create_only_on_acquire os w :
  created (trace (env (run os (new_Pool w)))) `sublist_of` acquired_keys os ∧
  length (created (trace (env (run os (new_Pool w)))))
  ≤ length (acquired_keys os).
Proof.
  destruct (created_run os (new_Pool w)) as (ks & Hc & Hks).
  cbn in Hc. rewrite Hc. split; [done|]. by apply sublist_length.
Qed.

(** ** The idle-list as a stack *)

Lemma release_all_room key rs p pool :
  (∀ r w, (validate r w).1 = true) →
  _pools p !! key = Some pool →
  length pool + length rs ≤ maxIdle →
  _pools (run (Release key <$> rs) p) = <[key := rev rs ++ pool]> (_pools p) ∧
  destroyed (trace (env (run (Release key <$> rs) p)))
  = destroyed (trace (env p)) ∧
  created (trace (env (run (Release key <$> rs) p)))
  = created (trace (env p)).
Proof.
  intros Hvalid. revert p pool.
  induction rs as [|r rs IH]; intros p pool Hk Hlen.
  - cbn. by rewrite obj_insert_id.
  - rewrite fmap_cons, run_cons. cbn [exec]. cbn [length] in Hlen.
    destruct (always_valid r (world (env p)) Hvalid) as [w1 Hv].
    rewrite (release_push _ _ _ _ _ Hk) by (done || lia). cbn [snd].
    destruct (IH {| _pools := <[key := r :: pool]> (_pools p);
                    env := {| world := w1;
                              trace := trace (env p) ++ [CallValidate r] |} |}
                (r :: pool)) as (-> & -> & ->).
    + cbn. by rewrite obj_lookup_insert_eq.
    + cbn. lia.
    + cbn [_pools env trace].
      rewrite obj_insert_insert_eq, destroyed_snoc_validate,
        created_snoc_validate.
      cbn [rev]. by rewrite <- app_assoc.
Qed.

Lemma acquire_all key (l : list R) p pool :
  (∀ r w, (validate r w).1 = true) →
  _pools p !! key = Some (l ++ pool) →
  ∃ p',
    acquire_many key (length l) p = (inr <$> l, p') ∧
    _pools p' = <[key := pool]> (_pools p) ∧
    destroyed (trace (env p')) = destroyed (trace (env p)) ∧
    created (trace (env p')) = created (trace (env p)).
Proof.
  intros Hvalid. revert p. induction l as [|r l IH]; intros p Hk.
  - exists p. by rewrite obj_insert_id.
  - destruct (always_valid r (world (env p)) Hvalid) as [w1 Hv].
    cbn [length acquire_many].
    rewrite (acquire_head key p r (l ++ pool) w1 Hk Hv).
    destruct (IH {| _pools := <[key := l ++ pool]> (_pools p);
                    env := {| world := w1;
                              trace := trace (env p) ++ [CallValidate r] |} |})
      as (p' & -> & Hp' & Hd & Hc).
    { cbn. by rewrite obj_lookup_insert_eq. }
    exists p'. split; [done|]. cbn [_pools env trace] in Hp', Hd, Hc.
    rewrite Hp', Hd, Hc, obj_insert_insert_eq, destroyed_snoc_validate,
      created_snoc_validate. done.
Qed.

(** X5: the idle-list is a stack.  When the validator accepts everything
    and the resources [rs] fit in the idle-list of [key], releasing them and
    then calling [acquire key] as many times hands them back in the reverse
    order, most recently released first, leaves the idle-lists as they were,
    and neither creates nor destroys anything. *)
Theorem release_acquire_round_trip key rs p pool :
  (∀ r w, (validate r w).1 = true) →
  _pools p !! key = Some pool →
  length pool + length rs ≤ maxIdle →
  ∃ p',
    acquire_many key (length rs) (run (Release key <$> rs) p)
    = (inr <$> rev rs, p') ∧
    _pools p' = _pools p ∧
    destroyed (trace (env p')) = destroyed (trace (env p)) ∧
    created (trace (env p')) = created (trace (env p)).
Proof.
  intros Hvalid Hk Hlen.
  destruct (release_all_room key rs p pool Hvalid Hk Hlen)
    as (Hpools & Hd & Hc).
  destruct (acquire_all key (rev rs) (run (Release key <$> rs) p) pool Hvalid)
    as (p' & Hmany & Hp' & Hd' & Hc').
  { by rewrite Hpools, obj_lookup_insert_eq. }
  exists p'. rewrite length_rev in Hmany. split; [done|].
  rewrite Hp', Hd', Hc', Hpools, obj_insert_insert_eq, obj_insert_id by done.
  done.
Qed.

(** ** [acquire] with nothing idle *)

(** X11: for a key that is not an inherited name, the first [acquire key]
    after [purge key] or [purgeAll] reuses nothing: after the [destroy]
    calls of the purge, its only call is [create], whose result it returns,
    and it stores an empty idle-list for [key], as a new own property. *)
Theorem acquire_after_purge key p :
  Object_prototype key = None →
  acquire key (purge key p).2
  = (thrown (create key (world (env (purge key p).2))).1,
     {| _pools := <[key := []]> (delete key (_pools p));
        env := {| world := (create key (world (env (purge key p).2))).2;
                  trace := trace (env p)
                           ++ (CallDestroy <$> default [] (_pools p !! key))
                           ++ [CallCreate key] |} |}) ∧
  acquire key (purgeAll p).2
  = (thrown (create key (world (env (purgeAll p).2))).1,
     {| _pools := <[key := []]> ∅;
        env := {| world := (create key (world (env (purgeAll p).2))).2;
                  trace := trace (env p) ++ (CallDestroy <$> idle p)
                           ++ [CallCreate key] |} |}).
Proof.
  intros Hproto. split.
  - rewrite acquire_empty;
      [|by apply inherits_plain|by rewrite purge_lookup, decide_True].
    rewrite purge_trace, <- app_assoc.
    assert (_pools (purge key p).2 = delete key (_pools p)) as ->
      by (by rewrite purge_state).
    done.
  - rewrite acquire_empty;
      [|by apply inherits_plain|by rewrite purgeAll_pools, obj_lookup_empty].
    by rewrite purgeAll_pools, purgeAll_trace, <- app_assoc.
Qed.

(** X12: a failed [acquire] leaves the pool usable.  If [acquire key] threw
    what [create] threw, the next [acquire key] just calls [create] again,
    validates and destroys nothing, and returns its result. *)
Theorem acquire_again_after_failure key p err p' :
  acquire key p = (inl (Thrown err), p') →
  acquire key p'
  = (thrown (create key (world (env p'))).1,
     {| _pools := _pools p';
        env := {| world := (create key (world (env p'))).2;
                  trace := trace (env p') ++ [CallCreate key] |} |}).
Proof.
  intros Hacq. destruct (inherits key p) as [len|] eqn:Hin.
  - rewrite (acquire_inherited _ _ _ Hin) in Hacq.
    assert (inherits key p' = Some len ∧ len ≠ Some 1 ∧ ∀ n, len ≠ Some (S n))
      as (Hin' & _ & Hlen).
    { destruct len as [[|n]|]; [|done|]; injection Hacq as _ <-;
        (split; [exact Hin|done]). }
    rewrite (acquire_inherited _ _ _ Hin').
    destruct len as [[|n]|]; [done| |done]. by destruct (Hlen n).
  - assert (_pools p' = <[key := []]> (_pools p)) as Hp'.
    { destruct (acquire_cases key p Hin) as (bad & rest & w1 & _ & _ & Hres).
      destruct rest as [|r rest'].
      - rewrite Hacq in Hres. by injection Hres as _ ->.
      - destruct Hres as (w2 & _ & Hres). congruence. }
    rewrite acquire_empty.
    + by rewrite Hp', obj_insert_insert_eq.
    + apply (inherits_own key p' []). by rewrite Hp', obj_lookup_insert_eq.
    + by rewrite Hp', obj_lookup_insert_eq.
Qed.

(** ** A validator that accepts everything *)

Lemma acquire_destroys_nothing key p :
  (∀ r w, (validate r w).1 = true) →
  destroyed (trace (env (acquire key p).2)) = destroyed (trace (env p)).
Proof.
  intros Hvalid. destruct (inherits key p) as [len|] eqn:Hin.
  - rewrite (acquire_inherited _ _ _ Hin).
    destruct len as [[|n]|]; [|done|]; cbn [snd env trace];
      by rewrite destroyed_snoc_create.
  - destruct (acquire_cases key p Hin) as (bad & rest & w1 & _ & Hrej & Hres).
    assert (bad = []) as ->.
    { destruct Hrej as [|r bad w w2 w3 Hv _]; [done|].
      specialize (Hvalid r w). by rewrite Hv in Hvalid. }
    destruct rest as [|r rest'].
    + rewrite Hres. cbn [snd env trace reject_calls mbind list_bind app].
      by rewrite destroyed_snoc_create.
    + destruct Hres as (w2 & _ & ->).
      cbn [snd env trace reject_calls mbind list_bind app].
      by rewrite destroyed_snoc_validate.
Qed.

(** X16: the pool does not tell a resource released twice from two
    resources.  When the validator accepts everything and the idle-list of
    [key] has room for two, releasing [r] twice stores it twice: the next
    two calls of [acquire key] both return [r], and a [purge key] instead
    calls [destroy] on [r] twice. *)
Theorem double_release key r p pool :
  (∀ r' w, (validate r' w).1 = true) →
  _pools p !! key = Some pool →
  length pool + 2 ≤ maxIdle →
  _pools (_release key r (_release key r p).2).2 !! key
  = Some (r :: r :: pool) ∧
  (acquire_many key 2 (_release key r (_release key r p).2).2).1
  = [inr r; inr r] ∧
  destroyed (trace (env (purge key (_release key r (_release key r p).2).2).2))
  = destroyed (trace (env p)) ++ r :: r :: pool.
Proof.
  intros Hvalid Hk Hlen.
  destruct (release_all_room key [r; r] p pool Hvalid Hk Hlen)
    as (Hpools & Hd & _).
  change (run (Release key <$> [r; r]) p)
    with (_release key r (_release key r p).2).2 in Hpools, Hd.
  assert (_pools (_release key r (_release key r p).2).2 !! key
          = Some ([r; r] ++ pool)) as Hk2.
  { by rewrite Hpools, obj_lookup_insert_eq. }
  split; [done|]. split.
  - destruct (acquire_all key [r; r] _ pool Hvalid Hk2) as (p' & Hmany & _).
    cbn [length] in Hmany. by rewrite Hmany.
  - by rewrite purge_trace, destroyed_app, destroyed_fmap_destroy, Hd, Hk2.
Qed.

(** ** Bounds *)

Lemma bind_length {A B} (f : A → list B) (l : list A) n :
  (∀ x, x ∈ l → length (f x) ≤ n) →
  length (l ≫= f) ≤ n * length l.
Proof.
  induction l as [|x l IH]; intros Hl; [cbn; lia|].
  rewrite bind_cons, length_app. cbn [length].
  specialize (Hl x) as Hx. specialize (Hx ltac:(by left)).
  specialize (IH ltac:(intros y Hy; apply (Hl y); by right)).
  lia.
Qed.

Lemma idle_length p n :
  (∀ key pool, _pools p !! key = Some pool → length pool ≤ n) →
  length (idle p) ≤ n * size (_pools p).
Proof.
  intros Hb. rewrite <- length_Object_keys. apply bind_length.
  intros k _. destruct (_pools p !! k) as [pool|] eqn:Hk; [|cbn; lia].
  by apply (Hb k).
Qed.

(** X13: a pool with [maxIdle = 0] keeps nothing.  In every state it can
    reach no resource is idle, and for every key but ["__proto__"]
    [_release] destroys the resource it is given without validating it and
    without touching the map. *)
Theorem no_idle_pool key r p :
  maxIdle = 0 →
  reachable p →
  Object_prototype key ≠ Some None →
  idle p = [] ∧
  _release key r p
  = (None, {| _pools := _pools p; env := call_destroy r (env p) |}).
Proof.
  intros Hzero Hreach Hproto. pose proof (reachable_bounded p Hreach) as Hb.
  split.
  - apply length_zero_iff_nil, Nat.le_0_r.
    etrans; [apply (idle_length p 0)|lia].
    intros k pool Hk. rewrite <- Hzero. by apply (Hb k).
  - destruct (_pools p !! key) as [pool|] eqn:Hk.
    + by rewrite (release_full key r p pool Hk) by lia.
    + unfold _release, inherits. rewrite Hk, Hzero.
      by destruct (Object_prototype key) as [[n|]|].
Qed.

(** X14: the pool as a whole holds at most [maxIdle] idle resources per key
    present, in every state it can reach. *)
Theorem idle_total_bounded p :
  reachable p →
  length (idle p) ≤ maxIdle * size (_pools p).
Proof. intros Hreach. apply idle_length, (reachable_bounded p Hreach). Qed.

(** ** Keys that are not inherited names *)

(** X17: for a key that is not the name of an inherited property,
    [acquire key] pops the idle-list of [key] from its most recently pushed
    end.  The resources popped first, [bad], are each refused by the
    validator and then destroyed, in that order.  If a resource [r] is left
    after them, the validator accepts it, it is returned and the rest of the
    list stays idle.  If none is left, [create] is called with [key], its
    result (a resource or an exception) is the result of [acquire], and that
    call is the last one made: the new resource is not validated. *)
Theorem acquire_plain_key key p :
  Object_prototype key = None →
  ∃ bad rest w1,
    default [] (_pools p !! key) = bad ++ rest ∧
    rejects bad (world (env p)) w1 ∧
    match rest with
    | r :: rest' =>
        ∃ w2, validate r w1 = (true, w2) ∧
          acquire key p
          = (inr r,
             {| _pools := <[key := rest']> (_pools p);
                env := {| world := w2;
                          trace := trace (env p) ++ reject_calls bad
                                   ++ [CallValidate r] |} |})
    | [] =>
        acquire key p
        = (thrown (create key w1).1,
           {| _pools := <[key := []]> (_pools p);
              env := {| world := (create key w1).2;
                        trace := trace (env p) ++ reject_calls bad
                                 ++ [CallCreate key] |} |})
    end.
Proof. intros Hproto. by apply acquire_cases, inherits_plain. Qed.

(** X18: for a key that is not the name of an inherited property,
    [purge key] returns normally; it calls [destroy] once on each resource
    of the idle-list of [key], from the most recently pushed one on, each
    call in the world the one before has left, and makes no other call; it
    removes [key] from the map, so that [has key] is false afterwards and
    stays false through any operations other than [acquire key], after which
    it is true. *)
Theorem purge_plain_key key p :
  Object_prototype key = None →
  purge key p
  = (None,
     {| _pools := delete key (_pools p);
        env := purge_loop (default [] (_pools p !! key)) (env p) |}) ∧
  trace (env (purge key p).2)
  = trace (env p) ++ (CallDestroy <$> default [] (_pools p !! key)) ∧
  has key (purge key p).2 = false ∧
  (∀ os, Forall (λ o, acquires key o = false) os →
         has key (run os (purge key p).2) = false ∧
         has key (exec (Acquire key) (run os (purge key p).2)) = true).
Proof.
  intros Hproto.
  assert (has key (purge key p).2 = false) as Hhas.
  { rewrite has_plain, purge_lookup, decide_True by done.
    apply bool_decide_eq_false. by intros [? ?]. }
  split; [|split; [apply purge_trace|split; [done|]]].
  - rewrite (surjective_pairing (purge key p)).
    by rewrite purge_result, inherits_plain, purge_state.
  - intros os Hos. split.
    + by apply has_run_no_acquire.
    + apply acquire_has.
Qed.

(** X19: for a key that is not the name of an inherited property and has
    no idle-list (it was purged, or never acquired), [_release key r]
    returns normally, calls [destroy] on [r] and nothing else, and leaves
    the map as it is: [r] is not stored, the list of [key] is not created
    again, and [has key] is still false. *)
Theorem release_purged_key key r p :
  Object_prototype key = None →
  has key p = false →
  _release key r p
  = (None, {| _pools := _pools p; env := call_destroy r (env p) |}) ∧
  has key (_release key r p).2 = false.
Proof.
  intros Hproto Hhas. split; [|by rewrite release_has].
  apply release_absent; [|done].
  rewrite has_plain in Hhas by done. apply bool_decide_eq_false in Hhas.
  destruct (_pools p !! key) as [pool|]; [|done].
  destruct Hhas. by exists pool.
Qed.

(** X20: for a key that is not the name of an inherited property, after any
    run of operations on a new pool [has key] is true exactly when the run
    contains an [acquire key] that no [purge key] and no [purgeAll] follows;
    in particular it is false when the run contains no [acquire key].  A key
    whose idle-list is empty is present. *)
Theorem has_plain_key key os w :
  Object_prototype key = None →
  (has key (run os (new_Pool w)) = true ↔
   ∃ before after,
     os = before ++ Acquire key :: after ∧
     Forall (λ o, purges key o = false) after) ∧
  (Forall (λ o, acquires key o = false) os →
   has key (run os (new_Pool w)) = false) ∧
  (∀ p, _pools p !! key = Some [] → has key p = true).
Proof.
  intros Hproto. split; [by apply has_run_new|]. split.
  - intros Hos. apply has_run_no_acquire; [done| |done].
    rewrite has_plain by done. apply bool_decide_eq_false.
    cbn. rewrite obj_lookup_empty. by intros [? ?].
  - intros p Hk. rewrite has_plain by done.
    apply bool_decide_eq_true. by exists [].
Qed.

(** X21: for a key that is not the name of an inherited property and is
    not in the map, [purge key] changes nothing: it returns normally and
    leaves the pool as it was, hence calls no callback. *)
Theorem purge_unknown_key key p :
  Object_prototype key = None →
  _pools p !! key = None →
  purge key p = (None, p).
Proof. intros Hproto Hk. by apply purge_absent_plain. Qed.

End further.

(** ** The constructor's defaults *)

Section defaults.
Context {R W E : Type} (factory : string → W → (E + R) * W).

(** X15: a pool built with the constructor's defaults
    ([new Pool(create)]).  In every state it can reach, an idle-list holds
    at most 50 resources, [acquire] destroys nothing, and [acquire key]
    returns the most recently released idle resource of [key] when there is
    one. *)
Theorem defaults_spec key (p : Pool R W) :
  reachable (args := with_defaults factory) p →
  (∀ pool, _pools p !! key = Some pool → length pool ≤ 50) ∧
  destroyed (trace (env (acquire (args := with_defaults factory) key p).2))
  = destroyed (trace (env p)) ∧
  (∀ r pool,
     _pools p !! key = Some (r :: pool) →
     (acquire (args := with_defaults factory) key p).1 = inr r).
Proof.
  intros Hreach. split; [|split].
  - intros pool Hk.
    apply (reachable_bounded (args := with_defaults factory) p Hreach key pool Hk).
  - by apply acquire_destroys_nothing.
  - intros r pool Hk.
    by rewrite (acquire_head (args := with_defaults factory)
                  key p r pool (world (env p)) Hk eq_refl).
Qed.

End defaults.

(** * The further properties on the pools above *)

Section steady_accounts.
#[local] Existing Instance steady.

Lemma steady_two_keys_reachable : reachable steady_two_keys.
Proof. apply reachable_run, reachable_new. Qed.

(** [Object.keys] lists the array indices first, in ascending order, then
    the other names in the order of their creation. *)
Lemma Object_keys_order :
  Object_keys (<["9" := 3]> (<["a" := 2]> (<["10" := 1]> (<["b" := 0]> ∅))))
  = ["9"; "10"; "b"; "a"].
Proof. reflexivity. Qed.

(** [purgeAll] follows that order: with ["b"] created before ["a"], the
    idle resources of ["b"] are destroyed first. *)
Lemma purgeAll_order :
  idle steady_two_keys = [2; 0; 1] ∧
  trace (env (purgeAll steady_two_keys).2)
  = trace (env steady_two_keys) ++ [CallDestroy 2; CallDestroy 0; CallDestroy 1].
Proof. split; reflexivity. Qed.

Lemma purgeAll_any_order_witness :
  _pools (purge_each (reverse (Object_keys (_pools steady_two_keys)))
            steady_two_keys).2 = ∅ ∧
  destroyed (trace (env (purge_each
                           (reverse (Object_keys (_pools steady_two_keys)))
                           steady_two_keys).2))
  ≡ₚ destroyed (trace (env (purgeAll steady_two_keys).2)).
Proof. apply purgeAll_any_order. apply reverse_Permutation. Defined.

Lemma release_acquire_round_trip_witness :
  ∃ p',
    acquire_many "a" (length [0; 1]) (run (Release "a" <$> [0; 1]) steady_start)
    = (inr <$> rev [0; 1], p') ∧
    _pools p' = _pools steady_start ∧
    destroyed (trace (env p')) = destroyed (trace (env steady_start)) ∧
    created (trace (env p')) = created (trace (env steady_start)).
Proof.
  apply (release_acquire_round_trip "a" [0; 1] steady_start []).
  - intros r w. reflexivity.
  - reflexivity.
  - vm_compute. lia.
Defined.

Lemma no_resource_lost_witness :
  idle (run [Acquire "a"; Release "a" 0; Release "b" 1] (new_Pool 0))
  ++ destroyed (trace (env (run [Acquire "a"; Release "a" 0; Release "b" 1]
                              (new_Pool 0))))
  ++ run_handed_out [Acquire "a"; Release "a" 0; Release "b" 1] (new_Pool 0)
  ≡ₚ [Acquire "a"; Release "a" 0; Release "b" 1] ≫= taken_in.
Proof.
  apply (proj2 (no_resource_lost
                  [Acquire "a"; Release "a" 0; Release "b" 1] 0)).
  intros key r Hin.
  repeat (apply elem_of_cons in Hin as [Heq|Hin];
          [try discriminate Heq; injection Heq as -> _; reflexivity|]).
  by apply elem_of_nil in Hin.
Defined.

Lemma destroys_only_released_witness :
  ∃ key, Release key 0 ∈ [Acquire "a"; Purge "a"; Release "a" 0].
Proof.
  apply (proj1 (destroys_only_released
                  [Acquire "a"; Purge "a"; Release "a" 0] 0) 0).
  vm_compute. left.
Defined.

Lemma idle_was_released_witness :
  Release "a" 1
  ∈ [Acquire "a"; Acquire "a"; Acquire "a"; Release "a" 0; Release "a" 1].
Proof.
  apply (idle_was_released "a" _ 0 [1; 0] 1).
  - reflexivity.
  - left.
Defined.

Lemma acquire_origin_witness :
  Release "a" 1
  ∈ [Acquire "a"; Acquire "a"; Acquire "a"; Release "a" 0; Release "a" 1] ∨
  ∃ w1, create "a" w1
        = (inr 1,
           world (env (acquire "a"
                         (run [Acquire "a"; Acquire "a"; Acquire "a";
                               Release "a" 0; Release "a" 1]
                            (new_Pool 0))).2)).
Proof. apply (acquire_origin "a" _ 0 1). reflexivity. Defined.

Lemma acquire_after_purge_witness :
  acquire "a" (purge "a" steady_one_idle).2
  = (thrown (create "a" (world (env (purge "a" steady_one_idle).2))).1,
     {| _pools := <["a" := []]> (delete "a" (_pools steady_one_idle));
        env := {| world := (create "a"
                              (world (env (purge "a" steady_one_idle).2))).2;
                  trace := trace (env steady_one_idle)
                           ++ (CallDestroy
                                 <$> default [] (_pools steady_one_idle !! "a"))
                           ++ [CallCreate "a"] |} |}).
Proof. apply (proj1 (acquire_after_purge "a" steady_one_idle eq_refl)). Defined.

Lemma acquire_plain_key_witness :
  ∃ bad rest w1,
    default [] (_pools steady_full !! "a") = bad ++ rest ∧
    rejects bad (world (env steady_full)) w1 ∧
    match rest with
    | r :: rest' =>
        ∃ w2, validate r w1 = (true, w2) ∧
          acquire "a" steady_full
          = (inr r,
             {| _pools := <["a" := rest']> (_pools steady_full);
                env := {| world := w2;
                          trace := trace (env steady_full) ++ reject_calls bad
                                   ++ [CallValidate r] |} |})
    | [] =>
        acquire "a" steady_full
        = (thrown (create "a" w1).1,
           {| _pools := <["a" := []]> (_pools steady_full);
              env := {| world := (create "a" w1).2;
                        trace := trace (env steady_full) ++ reject_calls bad
                                 ++ [CallCreate "a"] |} |})
    end.
Proof. apply (acquire_plain_key "a" steady_full). reflexivity. Defined.

Lemma purge_plain_key_witness :
  has "a" (run [Acquire "b"; Release "a" 9; Has "a"]
             (purge "a" steady_full).2)
  = false ∧
  has "a" (exec (Acquire "a")
             (run [Acquire "b"; Release "a" 9; Has "a"]
                (purge "a" steady_full).2))
  = true.
Proof.
  apply (proj2 (proj2 (proj2 (purge_plain_key "a" steady_full eq_refl)))).
  repeat constructor.
Defined.

Lemma release_purged_key_witness :
  _release "a" 2 (purge "a" steady_full).2
  = (None,
     {| _pools := _pools (purge "a" steady_full).2;
        env := call_destroy 2 (env (purge "a" steady_full).2) |}) ∧
  has "a" (_release "a" 2 (purge "a" steady_full).2).2 = false.
Proof. apply release_purged_key; reflexivity. Defined.

Lemma has_plain_key_witness :
  has "a" (run [Acquire "a"; Purge "a"; Acquire "a"; Release "a" 0]
             (new_Pool 0)) = true ∧
  has "a" (run [Acquire "b"; Release "a" 1; PurgeAll] (new_Pool 0)) = false ∧
  has "a" steady_start = true.
Proof.
  split; [|split].
  - apply (proj1 (has_plain_key "a" _ 0 eq_refl)).
    exists [Acquire "a"; Purge "a"], [Release "a" 0].
    split; [reflexivity | repeat constructor].
  - apply (proj1 (proj2 (has_plain_key "a" _ 0 eq_refl))). repeat constructor.
  - apply (proj2 (proj2 (has_plain_key "a" [] 0 eq_refl))). reflexivity.
Defined.

Lemma purge_unknown_key_witness :
  purge "b" steady_full = (None, steady_full).
Proof. apply purge_unknown_key; reflexivity. Defined.

Lemma double_release_witness :
  _pools (_release "a" 0 (_release "a" 0 steady_start).2).2 !! "a"
  = Some [0; 0] ∧
  (acquire_many "a" 2 (_release "a" 0 (_release "a" 0 steady_start).2).2).1
  = [inr 0; inr 0] ∧
  destroyed (trace (env (purge "a"
                           (_release "a" 0
                              (_release "a" 0 steady_start).2).2).2))
  = destroyed (trace (env steady_start)) ++ [0; 0].
Proof.
  apply (double_release "a" 0 steady_start []).
  - intros r w. reflexivity.
  - reflexivity.
  - vm_compute. lia.
Defined.

Lemma idle_total_bounded_witness :
  length (idle steady_two_keys) ≤ maxIdle * size (_pools steady_two_keys).
Proof. apply idle_total_bounded, steady_two_keys_reachable. Defined.

End steady_accounts.

Section no_idle_accounts.
#[local] Existing Instance no_idle.

Lemma no_idle_pool_witness :
  idle (run [Acquire "k"; Release "k" 0] (new_Pool 0)) = [] ∧
  _release "k" 1 (run [Acquire "k"; Release "k" 0] (new_Pool 0))
  = (None,
     {| _pools := _pools (run [Acquire "k"; Release "k" 0] (new_Pool 0));
        env := call_destroy 1
                 (env (run [Acquire "k"; Release "k" 0] (new_Pool 0))) |}).
Proof.
  apply no_idle_pool.
  - reflexivity.
  - apply reachable_run, reachable_new.
  - discriminate.
Defined.

End no_idle_accounts.

Section expiring_accounts.
#[local] Existing Instance expiring.

Lemma acquire_again_after_failure_witness :
  acquire "a" (acquire "a" expiring_idle).2
  = (thrown (create "a" (world (env (acquire "a" expiring_idle).2))).1,
     {| _pools := _pools (acquire "a" expiring_idle).2;
        env := {| world := (create "a"
                              (world (env (acquire "a" expiring_idle).2))).2;
                  trace := trace (env (acquire "a" expiring_idle).2)
                           ++ [CallCreate "a"] |} |}).
Proof.
  apply (acquire_again_after_failure "a" expiring_idle "ECONNREFUSED").
  reflexivity.
Defined.

End expiring_accounts.

Section default_accounts.

Lemma defaults_spec_witness :
  (∀ pool,
     _pools (run (args := with_defaults (@create _ _ _ steady))
               [Acquire "a"; Release "a" 0] (new_Pool 0)) !! "a" = Some pool →
     length pool ≤ 50) ∧
  destroyed
    (trace (env (acquire (args := with_defaults (@create _ _ _ steady)) "a"
                   (run (args := with_defaults (@create _ _ _ steady))
                      [Acquire "a"; Release "a" 0] (new_Pool 0))).2))
  = destroyed
      (trace (env (run (args := with_defaults (@create _ _ _ steady))
                     [Acquire "a"; Release "a" 0] (new_Pool 0)))) ∧
  (∀ r pool,
     _pools (run (args := with_defaults (@create _ _ _ steady))
               [Acquire "a"; Release "a" 0] (new_Pool 0)) !! "a"
     = Some (r :: pool) →
     (acquire (args := with_defaults (@create _ _ _ steady)) "a"
        (run (args := with_defaults (@create _ _ _ steady))
           [Acquire "a"; Release "a" 0] (new_Pool 0))).1 = inr r).
Proof.
  apply (defaults_spec (@create _ _ _ steady) "a").
  apply (reachable_run (args := with_defaults (@create _ _ _ steady))),
    reachable_new.
Defined.

End default_accounts.
